(** * ARIA block cipher (RFC 5794): key schedule and block transform

    A shallow embedding of [cipher/aria.c].  The C code works on arrays of
    32-bit words through pointers ([w + 4], [ek + 44], ...) and a handful of
    statement macros that read four words from one place and write four
    words to another.  The embedding keeps that shape: a memory made of the
    word arrays the three functions touch, pointers as an array name plus an
    offset, and every macro as a sequence of single-word assignments. *)

From Stdlib Require Import ZArith List Lia Bool Ring.
From coqutil Require Import Z.bitblast.
Import ListNotations.
Local Open Scope Z_scope.

Module Aria.

(** ** Machine integers

    [uint32_t] and [uint8_t] values are integers of [Z]; the only operation
    of the source that can leave the 32-bit range is the left shift, whose
    wrap-around is written out. *)

Definition u32 (z : Z) : Z := Z.land z 0xFFFFFFFF.
Definition shl32 (a n : Z) : Z := u32 (Z.shiftl a n).
Definition shr32 (a n : Z) : Z := Z.shiftr a n.

Infix "^^" := Z.lxor (at level 40, left associativity).
Infix "|||" := Z.lor (at level 50, left associativity).

(** Array update; an index outside the array leaves it as it is (the source
    never writes out of bounds). *)
Fixpoint upd (i : nat) (v : Z) (l : list Z) : list Z :=
  match l, i with
  | [], _ => []
  | _ :: l', O => v :: l'
  | x :: l', S i' => x :: upd i' v l'
  end.

(** Table lookup [tbl[i]]. *)
Definition at_ (tbl : list Z) (i : Z) : Z := nth (Z.to_nat i) tbl 0.

(** ** Primitive tables *)

Definition sb1 : list Z :=
  [
   0x63; 0x7C; 0x77; 0x7B; 0xF2; 0x6B; 0x6F; 0xC5; 0x30; 0x01; 0x67; 0x2B; 0xFE; 0xD7; 0xAB; 0x76;
   0xCA; 0x82; 0xC9; 0x7D; 0xFA; 0x59; 0x47; 0xF0; 0xAD; 0xD4; 0xA2; 0xAF; 0x9C; 0xA4; 0x72; 0xC0;
   0xB7; 0xFD; 0x93; 0x26; 0x36; 0x3F; 0xF7; 0xCC; 0x34; 0xA5; 0xE5; 0xF1; 0x71; 0xD8; 0x31; 0x15;
   0x04; 0xC7; 0x23; 0xC3; 0x18; 0x96; 0x05; 0x9A; 0x07; 0x12; 0x80; 0xE2; 0xEB; 0x27; 0xB2; 0x75;
   0x09; 0x83; 0x2C; 0x1A; 0x1B; 0x6E; 0x5A; 0xA0; 0x52; 0x3B; 0xD6; 0xB3; 0x29; 0xE3; 0x2F; 0x84;
   0x53; 0xD1; 0x00; 0xED; 0x20; 0xFC; 0xB1; 0x5B; 0x6A; 0xCB; 0xBE; 0x39; 0x4A; 0x4C; 0x58; 0xCF;
   0xD0; 0xEF; 0xAA; 0xFB; 0x43; 0x4D; 0x33; 0x85; 0x45; 0xF9; 0x02; 0x7F; 0x50; 0x3C; 0x9F; 0xA8;
   0x51; 0xA3; 0x40; 0x8F; 0x92; 0x9D; 0x38; 0xF5; 0xBC; 0xB6; 0xDA; 0x21; 0x10; 0xFF; 0xF3; 0xD2;
   0xCD; 0x0C; 0x13; 0xEC; 0x5F; 0x97; 0x44; 0x17; 0xC4; 0xA7; 0x7E; 0x3D; 0x64; 0x5D; 0x19; 0x73;
   0x60; 0x81; 0x4F; 0xDC; 0x22; 0x2A; 0x90; 0x88; 0x46; 0xEE; 0xB8; 0x14; 0xDE; 0x5E; 0x0B; 0xDB;
   0xE0; 0x32; 0x3A; 0x0A; 0x49; 0x06; 0x24; 0x5C; 0xC2; 0xD3; 0xAC; 0x62; 0x91; 0x95; 0xE4; 0x79;
   0xE7; 0xC8; 0x37; 0x6D; 0x8D; 0xD5; 0x4E; 0xA9; 0x6C; 0x56; 0xF4; 0xEA; 0x65; 0x7A; 0xAE; 0x08;
   0xBA; 0x78; 0x25; 0x2E; 0x1C; 0xA6; 0xB4; 0xC6; 0xE8; 0xDD; 0x74; 0x1F; 0x4B; 0xBD; 0x8B; 0x8A;
   0x70; 0x3E; 0xB5; 0x66; 0x48; 0x03; 0xF6; 0x0E; 0x61; 0x35; 0x57; 0xB9; 0x86; 0xC1; 0x1D; 0x9E;
   0xE1; 0xF8; 0x98; 0x11; 0x69; 0xD9; 0x8E; 0x94; 0x9B; 0x1E; 0x87; 0xE9; 0xCE; 0x55; 0x28; 0xDF;
   0x8C; 0xA1; 0x89; 0x0D; 0xBF; 0xE6; 0x42; 0x68; 0x41; 0x99; 0x2D; 0x0F; 0xB0; 0x54; 0xBB; 0x16
  ].

Definition sb2 : list Z :=
  [
   0xE2; 0x4E; 0x54; 0xFC; 0x94; 0xC2; 0x4A; 0xCC; 0x62; 0x0D; 0x6A; 0x46; 0x3C; 0x4D; 0x8B; 0xD1;
   0x5E; 0xFA; 0x64; 0xCB; 0xB4; 0x97; 0xBE; 0x2B; 0xBC; 0x77; 0x2E; 0x03; 0xD3; 0x19; 0x59; 0xC1;
   0x1D; 0x06; 0x41; 0x6B; 0x55; 0xF0; 0x99; 0x69; 0xEA; 0x9C; 0x18; 0xAE; 0x63; 0xDF; 0xE7; 0xBB;
   0x00; 0x73; 0x66; 0xFB; 0x96; 0x4C; 0x85; 0xE4; 0x3A; 0x09; 0x45; 0xAA; 0x0F; 0xEE; 0x10; 0xEB;
   0x2D; 0x7F; 0xF4; 0x29; 0xAC; 0xCF; 0xAD; 0x91; 0x8D; 0x78; 0xC8; 0x95; 0xF9; 0x2F; 0xCE; 0xCD;
   0x08; 0x7A; 0x88; 0x38; 0x5C; 0x83; 0x2A; 0x28; 0x47; 0xDB; 0xB8; 0xC7; 0x93; 0xA4; 0x12; 0x53;
   0xFF; 0x87; 0x0E; 0x31; 0x36; 0x21; 0x58; 0x48; 0x01; 0x8E; 0x37; 0x74; 0x32; 0xCA; 0xE9; 0xB1;
   0xB7; 0xAB; 0x0C; 0xD7; 0xC4; 0x56; 0x42; 0x26; 0x07; 0x98; 0x60; 0xD9; 0xB6; 0xB9; 0x11; 0x40;
   0xEC; 0x20; 0x8C; 0xBD; 0xA0; 0xC9; 0x84; 0x04; 0x49; 0x23; 0xF1; 0x4F; 0x50; 0x1F; 0x13; 0xDC;
   0xD8; 0xC0; 0x9E; 0x57; 0xE3; 0xC3; 0x7B; 0x65; 0x3B; 0x02; 0x8F; 0x3E; 0xE8; 0x25; 0x92; 0xE5;
   0x15; 0xDD; 0xFD; 0x17; 0xA9; 0xBF; 0xD4; 0x9A; 0x7E; 0xC5; 0x39; 0x67; 0xFE; 0x76; 0x9D; 0x43;
   0xA7; 0xE1; 0xD0; 0xF5; 0x68; 0xF2; 0x1B; 0x34; 0x70; 0x05; 0xA3; 0x8A; 0xD5; 0x79; 0x86; 0xA8;
   0x30; 0xC6; 0x51; 0x4B; 0x1E; 0xA6; 0x27; 0xF6; 0x35; 0xD2; 0x6E; 0x24; 0x16; 0x82; 0x5F; 0xDA;
   0xE6; 0x75; 0xA2; 0xEF; 0x2C; 0xB2; 0x1C; 0x9F; 0x5D; 0x6F; 0x80; 0x0A; 0x72; 0x44; 0x9B; 0x6C;
   0x90; 0x0B; 0x5B; 0x33; 0x7D; 0x5A; 0x52; 0xF3; 0x61; 0xA1; 0xF7; 0xB0; 0xD6; 0x3F; 0x7C; 0x6D;
   0xED; 0x14; 0xE0; 0xA5; 0x3D; 0x22; 0xB3; 0xF8; 0x89; 0xDE; 0x71; 0x1A; 0xAF; 0xBA; 0xB5; 0x81
  ].

Definition sb3 : list Z :=
  [
   0x52; 0x09; 0x6A; 0xD5; 0x30; 0x36; 0xA5; 0x38; 0xBF; 0x40; 0xA3; 0x9E; 0x81; 0xF3; 0xD7; 0xFB;
   0x7C; 0xE3; 0x39; 0x82; 0x9B; 0x2F; 0xFF; 0x87; 0x34; 0x8E; 0x43; 0x44; 0xC4; 0xDE; 0xE9; 0xCB;
   0x54; 0x7B; 0x94; 0x32; 0xA6; 0xC2; 0x23; 0x3D; 0xEE; 0x4C; 0x95; 0x0B; 0x42; 0xFA; 0xC3; 0x4E;
   0x08; 0x2E; 0xA1; 0x66; 0x28; 0xD9; 0x24; 0xB2; 0x76; 0x5B; 0xA2; 0x49; 0x6D; 0x8B; 0xD1; 0x25;
   0x72; 0xF8; 0xF6; 0x64; 0x86; 0x68; 0x98; 0x16; 0xD4; 0xA4; 0x5C; 0xCC; 0x5D; 0x65; 0xB6; 0x92;
   0x6C; 0x70; 0x48; 0x50; 0xFD; 0xED; 0xB9; 0xDA; 0x5E; 0x15; 0x46; 0x57; 0xA7; 0x8D; 0x9D; 0x84;
   0x90; 0xD8; 0xAB; 0x00; 0x8C; 0xBC; 0xD3; 0x0A; 0xF7; 0xE4; 0x58; 0x05; 0xB8; 0xB3; 0x45; 0x06;
   0xD0; 0x2C; 0x1E; 0x8F; 0xCA; 0x3F; 0x0F; 0x02; 0xC1; 0xAF; 0xBD; 0x03; 0x01; 0x13; 0x8A; 0x6B;
   0x3A; 0x91; 0x11; 0x41; 0x4F; 0x67; 0xDC; 0xEA; 0x97; 0xF2; 0xCF; 0xCE; 0xF0; 0xB4; 0xE6; 0x73;
   0x96; 0xAC; 0x74; 0x22; 0xE7; 0xAD; 0x35; 0x85; 0xE2; 0xF9; 0x37; 0xE8; 0x1C; 0x75; 0xDF; 0x6E;
   0x47; 0xF1; 0x1A; 0x71; 0x1D; 0x29; 0xC5; 0x89; 0x6F; 0xB7; 0x62; 0x0E; 0xAA; 0x18; 0xBE; 0x1B;
   0xFC; 0x56; 0x3E; 0x4B; 0xC6; 0xD2; 0x79; 0x20; 0x9A; 0xDB; 0xC0; 0xFE; 0x78; 0xCD; 0x5A; 0xF4;
   0x1F; 0xDD; 0xA8; 0x33; 0x88; 0x07; 0xC7; 0x31; 0xB1; 0x12; 0x10; 0x59; 0x27; 0x80; 0xEC; 0x5F;
   0x60; 0x51; 0x7F; 0xA9; 0x19; 0xB5; 0x4A; 0x0D; 0x2D; 0xE5; 0x7A; 0x9F; 0x93; 0xC9; 0x9C; 0xEF;
   0xA0; 0xE0; 0x3B; 0x4D; 0xAE; 0x2A; 0xF5; 0xB0; 0xC8; 0xEB; 0xBB; 0x3C; 0x83; 0x53; 0x99; 0x61;
   0x17; 0x2B; 0x04; 0x7E; 0xBA; 0x77; 0xD6; 0x26; 0xE1; 0x69; 0x14; 0x63; 0x55; 0x21; 0x0C; 0x7D
  ].

Definition sb4 : list Z :=
  [
   0x30; 0x68; 0x99; 0x1B; 0x87; 0xB9; 0x21; 0x78; 0x50; 0x39; 0xDB; 0xE1; 0x72; 0x09; 0x62; 0x3C;
   0x3E; 0x7E; 0x5E; 0x8E; 0xF1; 0xA0; 0xCC; 0xA3; 0x2A; 0x1D; 0xFB; 0xB6; 0xD6; 0x20; 0xC4; 0x8D;
   0x81; 0x65; 0xF5; 0x89; 0xCB; 0x9D; 0x77; 0xC6; 0x57; 0x43; 0x56; 0x17; 0xD4; 0x40; 0x1A; 0x4D;
   0xC0; 0x63; 0x6C; 0xE3; 0xB7; 0xC8; 0x64; 0x6A; 0x53; 0xAA; 0x38; 0x98; 0x0C; 0xF4; 0x9B; 0xED;
   0x7F; 0x22; 0x76; 0xAF; 0xDD; 0x3A; 0x0B; 0x58; 0x67; 0x88; 0x06; 0xC3; 0x35; 0x0D; 0x01; 0x8B;
   0x8C; 0xC2; 0xE6; 0x5F; 0x02; 0x24; 0x75; 0x93; 0x66; 0x1E; 0xE5; 0xE2; 0x54; 0xD8; 0x10; 0xCE;
   0x7A; 0xE8; 0x08; 0x2C; 0x12; 0x97; 0x32; 0xAB; 0xB4; 0x27; 0x0A; 0x23; 0xDF; 0xEF; 0xCA; 0xD9;
   0xB8; 0xFA; 0xDC; 0x31; 0x6B; 0xD1; 0xAD; 0x19; 0x49; 0xBD; 0x51; 0x96; 0xEE; 0xE4; 0xA8; 0x41;
   0xDA; 0xFF; 0xCD; 0x55; 0x86; 0x36; 0xBE; 0x61; 0x52; 0xF8; 0xBB; 0x0E; 0x82; 0x48; 0x69; 0x9A;
   0xE0; 0x47; 0x9E; 0x5C; 0x04; 0x4B; 0x34; 0x15; 0x79; 0x26; 0xA7; 0xDE; 0x29; 0xAE; 0x92; 0xD7;
   0x84; 0xE9; 0xD2; 0xBA; 0x5D; 0xF3; 0xC5; 0xB0; 0xBF; 0xA4; 0x3B; 0x71; 0x44; 0x46; 0x2B; 0xFC;
   0xEB; 0x6F; 0xD5; 0xF6; 0x14; 0xFE; 0x7C; 0x70; 0x5A; 0x7D; 0xFD; 0x2F; 0x18; 0x83; 0x16; 0xA5;
   0x91; 0x1F; 0x05; 0x95; 0x74; 0xA9; 0xC1; 0x5B; 0x4A; 0x85; 0x6D; 0x13; 0x07; 0x4F; 0x4E; 0x45;
   0xB2; 0x0F; 0xC9; 0x1C; 0xA6; 0xBC; 0xEC; 0x73; 0x90; 0x7B; 0xCF; 0x59; 0x8F; 0xA1; 0xF9; 0x2D;
   0xF2; 0xB1; 0x00; 0x94; 0x37; 0x9F; 0xD0; 0x2E; 0x9C; 0x6E; 0x28; 0x3F; 0x80; 0xF0; 0x3D; 0xD3;
   0x25; 0x8A; 0xB5; 0xE7; 0x42; 0xB3; 0xC7; 0xEA; 0xF7; 0x4C; 0x11; 0x33; 0x03; 0xA2; 0xAC; 0x60
  ].

Definition c : list Z :=
  [
   0x517CC1B7; 0x27220A94; 0xFE13ABE8; 0xFA9A6EE0; 0x6DB14ACC; 0x9E21C820;
   0xFF28B1D5; 0xEF5DE2B0; 0xDB92371D; 0x2126E970; 0x03249775; 0x04E8C90E
  ].

(** ** Collaborators declared outside [aria.c] *)

(** Modelled from the spec: the error codes of [error.h], which is not part
    of the sources at hand.  The spec's taxonomy names [InvalidParameter]
    and [InvalidKeyLength]; [NO_ERROR] is the success value. *)
Inductive error_t : Set :=
| NO_ERROR
| ERROR_INVALID_PARAMETER
| ERROR_INVALID_KEY_LENGTH.

(** Modelled from the spec: the [AriaContext] structure of [aria.h], which
    is not part of the sources at hand: the round count and the two
    round-key tables.  [ariaInit] writes the words [ek[0..67]], so both
    tables are arrays of 68 words. *)
Record AriaContext : Set := mkAriaContext {
  nr : Z;
  ek : list Z;
  dk : list Z
}.

(** Modelled from the spec: [LOAD32BE] of [cpu_endian.h], which is not part
    of the sources at hand: four bytes, most significant first, make one
    32-bit word. *)
Definition LOAD32BE (p : list Z) (off : nat) : Z :=
  shl32 (nth off p 0) 24 ||| shl32 (nth (off + 1) p 0) 16 |||
  shl32 (nth (off + 2) p 0) 8 ||| nth (off + 3) p 0.

(** Modelled from the spec: [STORE32BE] of [cpu_endian.h], which is not
    part of the sources at hand: the word is written as four bytes, most
    significant first. *)
Definition STORE32BE (a : Z) (p : list Z) (off : nat) : list Z :=
  let p := upd off (Z.land (shr32 a 24) 0xFF) p in
  let p := upd (off + 1) (Z.land (shr32 a 16) 0xFF) p in
  let p := upd (off + 2) (Z.land (shr32 a 8) 0xFF) p in
  upd (off + 3) (Z.land a 0xFF) p.

(** ** Memory

    The arrays of 32-bit words the code reads and writes: the two tables of
    the context, the local arrays [w] (of [ariaInit]), [t] (of [OF] and
    [EF]), [p] and [q] (of the block functions), and the constant table
    [c].  A pointer is an array and a word offset into it. *)

Inductive base : Set := Bw | Bt | Bp | Bq | Bek | Bdk | Bc.

Definition ptr : Set := (base * nat)%type.

Definition padd (a : ptr) (n : nat) : ptr := (fst a, (snd a + n)%nat).
Infix "+>" := padd (at level 50, left associativity).

Record Mem : Set := mkMem {
  m_ctx : AriaContext;
  m_w : list Z;
  m_t : list Z;
  m_p : list Z;
  m_q : list Z
}.

Definition buf (m : Mem) (b : base) : list Z :=
  match b with
  | Bw => m_w m
  | Bt => m_t m
  | Bp => m_p m
  | Bq => m_q m
  | Bek => ek (m_ctx m)
  | Bdk => dk (m_ctx m)
  | Bc => c
  end.

Definition set_buf (b : base) (l : list Z) (m : Mem) : Mem :=
  match b with
  | Bw => mkMem (m_ctx m) l (m_t m) (m_p m) (m_q m)
  | Bt => mkMem (m_ctx m) (m_w m) l (m_p m) (m_q m)
  | Bp => mkMem (m_ctx m) (m_w m) (m_t m) l (m_q m)
  | Bq => mkMem (m_ctx m) (m_w m) (m_t m) (m_p m) l
  | Bek => mkMem (mkAriaContext (nr (m_ctx m)) l (dk (m_ctx m)))
             (m_w m) (m_t m) (m_p m) (m_q m)
  | Bdk => mkMem (mkAriaContext (nr (m_ctx m)) (ek (m_ctx m)) l)
             (m_w m) (m_t m) (m_p m) (m_q m)
  | Bc => m
  end.

Definition set_nr (n : Z) (m : Mem) : Mem :=
  mkMem (mkAriaContext n (ek (m_ctx m)) (dk (m_ctx m)))
    (m_w m) (m_t m) (m_p m) (m_q m).

(** [a[i]] *)
Definition rd (m : Mem) (a : ptr) (i : nat) : Z :=
  nth (snd a + i) (buf m (fst a)) 0.

(** [a[i] = v] *)
Definition wr (a : ptr) (i : nat) (v : Z) (m : Mem) : Mem :=
  set_buf (fst a) (upd (snd a + i) v (buf m (fst a))) m.

(** A call starts with the context it was given; its local arrays are
    written before they are read, and start here as zeros. *)
Definition enter (context : AriaContext) : Mem :=
  mkMem context (repeat 0 16) (repeat 0 4) (repeat 0 4) (repeat 0 4).

(** Statements and expressions over the memory. *)
Definition stmt : Set := Mem -> Mem.
Definition expr : Set := Mem -> Z.

Definition seqs (f g : stmt) : stmt := fun m => g (f m).
Infix ";;" := seqs (at level 61, left associativity).

Definition skip : stmt := fun m => m.

(** [a[i] = e], [a[i] |= e] and [a[i] ^= e] *)
Definition assign (a : ptr) (i : nat) (e : expr) : stmt :=
  fun m => wr a i (e m) m.
Definition assign_or (a : ptr) (i : nat) (e : expr) : stmt :=
  fun m => wr a i (rd m a i ||| e m) m.
Definition assign_xor (a : ptr) (i : nat) (e : expr) : stmt :=
  fun m => wr a i (rd m a i ^^ e m) m.

(** ** The macros of [aria.c] *)

(** [MOV128(b, a)] *)
Definition MOV128 (b a : ptr) : stmt :=
  assign b 0 (fun m => rd m a 0) ;;
  assign b 1 (fun m => rd m a 1) ;;
  assign b 2 (fun m => rd m a 2) ;;
  assign b 3 (fun m => rd m a 3).

(** [XOR128(b, a)] *)
Definition XOR128 (b a : ptr) : stmt :=
  assign_xor b 0 (fun m => rd m a 0) ;;
  assign_xor b 1 (fun m => rd m a 1) ;;
  assign_xor b 2 (fun m => rd m a 2) ;;
  assign_xor b 3 (fun m => rd m a 3).

(** [ROL128(b, a, n)] *)
Definition ROL128 (b a : ptr) (n : nat) : stmt :=
  let lo := Z.of_nat (n mod 32) in
  let hi := Z.of_nat (32 - n mod 32) in
  assign b 0 (fun m => shl32 (rd m a ((n / 32 + 0) mod 4)) lo |||
                       shr32 (rd m a ((n / 32 + 1) mod 4)) hi) ;;
  assign b 1 (fun m => shl32 (rd m a ((n / 32 + 1) mod 4)) lo |||
                       shr32 (rd m a ((n / 32 + 2) mod 4)) hi) ;;
  assign b 2 (fun m => shl32 (rd m a ((n / 32 + 2) mod 4)) lo |||
                       shr32 (rd m a ((n / 32 + 3) mod 4)) hi) ;;
  assign b 3 (fun m => shl32 (rd m a ((n / 32 + 3) mod 4)) lo |||
                       shr32 (rd m a ((n / 32 + 0) mod 4)) hi).

(** [X(n)], the byte [n] of the four words at [x] *)
Definition X (x : ptr) (n : nat) : expr :=
  fun m => Z.land (shr32 (rd m x (n / 4)) (Z.of_nat ((3 - n mod 4) * 8))) 0xFF.

(** [tbl[X(n)] << k] *)
Definition sub (tbl : list Z) (x : ptr) (n : nat) (k : Z) : expr :=
  fun m => shl32 (at_ tbl (X x n m)) k.

(** [SL1(b, a)] *)
Definition SL1 (b a : ptr) : stmt :=
  let x := a in
  let y := b in
  assign y 0 (sub sb1 x 0 24) ;;
  assign_or y 0 (sub sb2 x 1 16) ;;
  assign_or y 0 (sub sb3 x 2 8) ;;
  assign_or y 0 (fun m => at_ sb4 (X x 3 m)) ;;
  assign y 1 (sub sb1 x 4 24) ;;
  assign_or y 1 (sub sb2 x 5 16) ;;
  assign_or y 1 (sub sb3 x 6 8) ;;
  assign_or y 1 (fun m => at_ sb4 (X x 7 m)) ;;
  assign y 2 (sub sb1 x 8 24) ;;
  assign_or y 2 (sub sb2 x 9 16) ;;
  assign_or y 2 (sub sb3 x 10 8) ;;
  assign_or y 2 (fun m => at_ sb4 (X x 11 m)) ;;
  assign y 3 (sub sb1 x 12 24) ;;
  assign_or y 3 (sub sb2 x 13 16) ;;
  assign_or y 3 (sub sb3 x 14 8) ;;
  assign_or y 3 (fun m => at_ sb4 (X x 15 m)).

(** [SL2(b, a)] *)
Definition SL2 (b a : ptr) : stmt :=
  let x := a in
  let y := b in
  assign y 0 (sub sb3 x 0 24) ;;
  assign_or y 0 (sub sb4 x 1 16) ;;
  assign_or y 0 (sub sb1 x 2 8) ;;
  assign_or y 0 (fun m => at_ sb2 (X x 3 m)) ;;
  assign y 1 (sub sb3 x 4 24) ;;
  assign_or y 1 (sub sb4 x 5 16) ;;
  assign_or y 1 (sub sb1 x 6 8) ;;
  assign_or y 1 (fun m => at_ sb2 (X x 7 m)) ;;
  assign y 2 (sub sb3 x 8 24) ;;
  assign_or y 2 (sub sb4 x 9 16) ;;
  assign_or y 2 (sub sb1 x 10 8) ;;
  assign_or y 2 (fun m => at_ sb2 (X x 11 m)) ;;
  assign y 3 (sub sb3 x 12 24) ;;
  assign_or y 3 (sub sb4 x 13 16) ;;
  assign_or y 3 (sub sb1 x 14 8) ;;
  assign_or y 3 (fun m => at_ sb2 (X x 15 m)).

(** [X(n0) ^ X(n1) ^ ... ^ X(n6)] *)
Definition X7 (x : ptr) (n0 n1 n2 n3 n4 n5 n6 : nat) : expr :=
  fun m => X x n0 m ^^ X x n1 m ^^ X x n2 m ^^ X x n3 m ^^
           X x n4 m ^^ X x n5 m ^^ X x n6 m.

Definition shl (e : expr) (k : Z) : expr := fun m => shl32 (e m) k.

(** [A(b, a)], the diffusion layer *)
Definition A (b a : ptr) : stmt :=
  let x := a in
  let y := b in
  assign y 0 (shl (X7 x 3 4 6 8 9 13 14) 24) ;;
  assign_or y 0 (shl (X7 x 2 5 7 8 9 12 15) 16) ;;
  assign_or y 0 (shl (X7 x 1 4 6 10 11 12 15) 8) ;;
  assign_or y 0 (X7 x 0 5 7 10 11 13 14) ;;
  assign y 1 (shl (X7 x 0 2 5 8 11 14 15) 24) ;;
  assign_or y 1 (shl (X7 x 1 3 4 9 10 14 15) 16) ;;
  assign_or y 1 (shl (X7 x 0 2 7 9 10 12 13) 8) ;;
  assign_or y 1 (X7 x 1 3 6 8 11 12 13) ;;
  assign y 2 (shl (X7 x 0 1 4 7 10 13 15) 24) ;;
  assign_or y 2 (shl (X7 x 0 1 5 6 11 12 14) 16) ;;
  assign_or y 2 (shl (X7 x 2 3 5 6 8 13 15) 8) ;;
  assign_or y 2 (X7 x 2 3 4 7 9 12 14) ;;
  assign y 3 (shl (X7 x 1 2 6 7 9 11 12) 24) ;;
  assign_or y 3 (shl (X7 x 0 3 6 7 8 10 13) 16) ;;
  assign_or y 3 (shl (X7 x 0 3 4 5 9 11 14) 8) ;;
  assign_or y 3 (X7 x 1 2 4 5 8 10 15).

(** ** Round functions *)

Definition t : ptr := (Bt, 0%nat).

(** [OF(d, rk)], the odd round function *)
Definition OF (d rk : ptr) : stmt :=
  XOR128 d rk ;;
  SL1 t d ;;
  A d t.

(** [EF(d, rk)], the even round function *)
Definition EF (d rk : ptr) : stmt :=
  XOR128 d rk ;;
  SL2 t d ;;
  A d t.

(** ** Control flow *)

(** [if(cond) a else b] *)
Definition ifs (cond : Mem -> bool) (a b : stmt) : stmt :=
  fun m => if cond m then a m else b m.

(** [for(i = lo; i < lo + n; i++) body], for a body that leaves the bounds
    alone *)
Definition for_range (lo n : nat) (body : nat -> stmt) : stmt :=
  fun m => fold_left (fun m i => body i m) (seq lo n) m.

(** The arrays of the functions, as pointers to their first word. *)
Definition w : ptr := (Bw, 0%nat).
Definition p : ptr := (Bp, 0%nat).
Definition q : ptr := (Bq, 0%nat).
Definition ck (off : nat) : ptr := (Bc, off).

(** ** Key schedule *)

(** [ariaInit], first part: the key words [KL] and [KR] and the
    intermediate values [W0], ..., [W3], left in [w].  [keyLen] is the
    length in bytes. *)
Definition ariaInit_words (key : list Z) (keyLen : Z) (ck1 ck2 ck3 : ptr)
  : stmt :=
  (* Determine the number of 32-bit words in the key *)
  let keyLen := keyLen / 4 in
  (* Compute 128-bit values KL and KR *)
  for_range 0 16 (fun i =>
    ifs (fun _ => Z.of_nat i <? keyLen)
      (assign w i (fun _ => LOAD32BE key (i * 4)))
      (assign w i (fun _ => 0))) ;;
  (* Save KR *)
  MOV128 (w +> 8) (w +> 4) ;;
  (* Compute intermediate values W0, W1, W2, and W3 *)
  MOV128 (w +> 4) (w +> 0) ;;
  OF (w +> 4) ck1 ;;
  XOR128 (w +> 4) (w +> 8) ;;
  MOV128 (w +> 8) (w +> 4) ;;
  EF (w +> 8) ck2 ;;
  XOR128 (w +> 8) (w +> 0) ;;
  MOV128 (w +> 12) (w +> 8) ;;
  OF (w +> 12) ck3 ;;
  XOR128 (w +> 12) (w +> 4).

(** [ariaInit], second part: the encryption round keys. *)
Definition ariaInit_ek : stmt :=
  (* Point to the encryption round keys *)
  let ek : ptr := (Bek, 0%nat) in
  (* Compute ek1, ..., ek17 *)
  ROL128 (ek +> 0) (w +> 4) 109 ;;
  XOR128 (ek +> 0) (w +> 0) ;;
  ROL128 (ek +> 4) (w +> 8) 109 ;;
  XOR128 (ek +> 4) (w +> 4) ;;
  ROL128 (ek +> 8) (w +> 12) 109 ;;
  XOR128 (ek +> 8) (w +> 8) ;;
  ROL128 (ek +> 12) (w +> 0) 109 ;;
  XOR128 (ek +> 12) (w +> 12) ;;
  ROL128 (ek +> 16) (w +> 4) 97 ;;
  XOR128 (ek +> 16) (w +> 0) ;;
  ROL128 (ek +> 20) (w +> 8) 97 ;;
  XOR128 (ek +> 20) (w +> 4) ;;
  ROL128 (ek +> 24) (w +> 12) 97 ;;
  XOR128 (ek +> 24) (w +> 8) ;;
  ROL128 (ek +> 28) (w +> 0) 97 ;;
  XOR128 (ek +> 28) (w +> 12) ;;
  ROL128 (ek +> 32) (w +> 4) 61 ;;
  XOR128 (ek +> 32) (w +> 0) ;;
  ROL128 (ek +> 36) (w +> 8) 61 ;;
  XOR128 (ek +> 36) (w +> 4) ;;
  ROL128 (ek +> 40) (w +> 12) 61 ;;
  XOR128 (ek +> 40) (w +> 8) ;;
  ROL128 (ek +> 44) (w +> 0) 61 ;;
  XOR128 (ek +> 44) (w +> 12) ;;
  ROL128 (ek +> 48) (w +> 4) 31 ;;
  XOR128 (ek +> 48) (w +> 0) ;;
  ROL128 (ek +> 52) (w +> 8) 31 ;;
  XOR128 (ek +> 52) (w +> 4) ;;
  ROL128 (ek +> 56) (w +> 12) 31 ;;
  XOR128 (ek +> 56) (w +> 8) ;;
  ROL128 (ek +> 60) (w +> 0) 31 ;;
  XOR128 (ek +> 60) (w +> 12) ;;
  ROL128 (ek +> 64) (w +> 4) 19 ;;
  XOR128 (ek +> 64) (w +> 0).

(** [ariaInit], third part: the decryption round keys, derived from the
    encryption round keys.  The loop runs [i] from 1 while [i < nr] and
    leaves [i] behind for the last statement. *)
Definition ariaInit_dk : stmt :=
  let ek : ptr := (Bek, 0%nat) in
  let dk : ptr := (Bdk, 0%nat) in
  fun m =>
    let n := Z.to_nat (nr (m_ctx m)) in
    (* Compute dk1 *)
    let m := MOV128 (dk +> 0) (ek +> n * 4) m in
    (* Compute dk2, ..., dk(n) *)
    let m := for_range 1 (n - 1) (fun i =>
               A (dk +> i * 4) (ek +> (n - i) * 4)) m in
    let i := Nat.max 1 n in
    (* Compute dk(n + 1) *)
    MOV128 (dk +> i * 4) (ek +> 0) m.

(** [ariaInit] after the choice of the round count and constants. *)
Definition ariaInit_schedule (key : list Z) (keyLen : Z) (ck1 ck2 ck3 : ptr)
  : stmt :=
  ariaInit_words key keyLen ck1 ck2 ck3 ;;
  ariaInit_ek ;;
  ariaInit_dk.

(** [ariaInit] past the null-pointer check: the error code and the memory
    the call leaves behind, its local array [w] included. *)
Definition ariaInit_mem (context : AriaContext) (key : list Z) (keyLen : Z)
  : error_t * Mem :=
  let m := enter context in
  (* Check the length of the master key *)
  if keyLen =? 16 then
    (* 128-bit master keys require a total of 12 rounds *)
    let m := set_nr 12 m in
    (NO_ERROR, ariaInit_schedule key keyLen (ck 0) (ck 4) (ck 8) m)
  else if keyLen =? 24 then
    (* 192-bit master keys require a total of 14 rounds *)
    let m := set_nr 14 m in
    (NO_ERROR, ariaInit_schedule key keyLen (ck 4) (ck 8) (ck 0) m)
  else if keyLen =? 32 then
    (* 256-bit master keys require a total of 16 rounds *)
    let m := set_nr 16 m in
    (NO_ERROR, ariaInit_schedule key keyLen (ck 8) (ck 0) (ck 4) m)
  else
    (* Report an error *)
    (ERROR_INVALID_KEY_LENGTH, m).

(** [ariaInit(context, key, keyLen)]; [None] is the null pointer.  The
    result is the error code and the context as the call leaves it. *)
Definition ariaInit (context : option AriaContext) (key : option (list Z))
  (keyLen : Z) : error_t * option AriaContext :=
  match context, key with
  | Some ctx, Some k =>
      let (e, m) := ariaInit_mem ctx k keyLen in (e, Some (m_ctx m))
  | _, _ => (ERROR_INVALID_PARAMETER, context)
  end.

(** ** Block transform *)

(** [ariaEncryptBlock(context, input, output)]: the context and the output
    buffer as the call leaves them. *)
Definition ariaEncryptBlock_mem (input : list Z) : stmt :=
  (* Copy the plaintext to the buffer *)
  assign p 0 (fun _ => LOAD32BE input 0) ;;
  assign p 1 (fun _ => LOAD32BE input 4) ;;
  assign p 2 (fun _ => LOAD32BE input 8) ;;
  assign p 3 (fun _ => LOAD32BE input 12) ;;
  (* Point to the encryption round keys *)
  let ek : ptr := (Bek, 0%nat) in
  (* Apply 11 rounds *)
  OF p (ek +> 0) ;;
  EF p (ek +> 4) ;;
  OF p (ek +> 8) ;;
  EF p (ek +> 12) ;;
  OF p (ek +> 16) ;;
  EF p (ek +> 20) ;;
  OF p (ek +> 24) ;;
  EF p (ek +> 28) ;;
  OF p (ek +> 32) ;;
  EF p (ek +> 36) ;;
  OF p (ek +> 40) ;;
  (* The number of rounds depends on the length of the master key *)
  ifs (fun m => nr (m_ctx m) =? 12)
    ((* 128-bit master keys require a total of 12 rounds *)
     XOR128 p (ek +> 44) ;;
     SL2 q p ;;
     XOR128 q (ek +> 48))
    (ifs (fun m => nr (m_ctx m) =? 14)
       ((* 192-bit master keys require a total of 14 rounds *)
        EF p (ek +> 44) ;;
        OF p (ek +> 48) ;;
        XOR128 p (ek +> 52) ;;
        SL2 q p ;;
        XOR128 q (ek +> 56))
       ((* 256-bit master keys require a total of 16 rounds *)
        EF p (ek +> 44) ;;
        OF p (ek +> 48) ;;
        EF p (ek +> 52) ;;
        OF p (ek +> 56) ;;
        XOR128 p (ek +> 60) ;;
        SL2 q p ;;
        XOR128 q (ek +> 64))).

(** Copy the resulting block from the buffer [q]. *)
Definition store_block (m : Mem) (output : list Z) : list Z :=
  let output := STORE32BE (rd m q 0) output 0 in
  let output := STORE32BE (rd m q 1) output 4 in
  let output := STORE32BE (rd m q 2) output 8 in
  STORE32BE (rd m q 3) output 12.

Definition ariaEncryptBlock (context : AriaContext) (input output : list Z)
  : AriaContext * list Z :=
  let m := ariaEncryptBlock_mem input (enter context) in
  (m_ctx m, store_block m output).

(** [ariaDecryptBlock(context, input, output)] *)
Definition ariaDecryptBlock_mem (input : list Z) : stmt :=
  (* Copy the ciphertext to the buffer *)
  assign p 0 (fun _ => LOAD32BE input 0) ;;
  assign p 1 (fun _ => LOAD32BE input 4) ;;
  assign p 2 (fun _ => LOAD32BE input 8) ;;
  assign p 3 (fun _ => LOAD32BE input 12) ;;
  (* Point to the decryption round keys *)
  let dk : ptr := (Bdk, 0%nat) in
  (* Apply 11 rounds *)
  OF p (dk +> 0) ;;
  EF p (dk +> 4) ;;
  OF p (dk +> 8) ;;
  EF p (dk +> 12) ;;
  OF p (dk +> 16) ;;
  EF p (dk +> 20) ;;
  OF p (dk +> 24) ;;
  EF p (dk +> 28) ;;
  OF p (dk +> 32) ;;
  EF p (dk +> 36) ;;
  OF p (dk +> 40) ;;
  (* The number of rounds depends on the length of the master key *)
  ifs (fun m => nr (m_ctx m) =? 12)
    ((* 128-bit master keys require a total of 12 rounds *)
     XOR128 p (dk +> 44) ;;
     SL2 q p ;;
     XOR128 q (dk +> 48))
    (ifs (fun m => nr (m_ctx m) =? 14)
       ((* 192-bit master keys require a total of 14 rounds *)
        EF p (dk +> 44) ;;
        OF p (dk +> 48) ;;
        XOR128 p (dk +> 52) ;;
        SL2 q p ;;
        XOR128 q (dk +> 56))
       ((* 256-bit master keys require a total of 16 rounds *)
        EF p (dk +> 44) ;;
        OF p (dk +> 48) ;;
        EF p (dk +> 52) ;;
        OF p (dk +> 56) ;;
        XOR128 p (dk +> 60) ;;
        SL2 q p ;;
        XOR128 q (dk +> 64))).

Definition ariaDecryptBlock (context : AriaContext) (input output : list Z)
  : AriaContext * list Z :=
  let m := ariaDecryptBlock_mem input (enter context) in
  (m_ctx m, store_block m output).

(** ** Release of the context *)



(** ** Blocks

    The macros read and write four consecutive words; a block is the value
    of such a group. *)

Definition block : Set := (Z * Z * Z * Z)%type.

(** A context whose tables hold zeros. *)
Definition ctx0 : AriaContext := mkAriaContext 0 (repeat 0 68) (repeat 0 68).

Definition get128 (m : Mem) (a : ptr) : block :=
  (rd m a 0, rd m a 1, rd m a 2, rd m a 3).

Definition put128 (b : ptr) (x : block) : stmt :=
  fun m => let '(x0, x1, x2, x3) := x in
           wr b 3 x3 (wr b 2 x2 (wr b 1 x1 (wr b 0 x0 m))).

(** The block a macro [M(b, a)] leaves at [b] when [a] holds [x], and the
    block a macro or function [M(b, a)] that also reads [b] leaves there
    when [b] holds [x] and [a] holds [y]: the macro is run on the arrays
    [p] and [q]. *)
Definition run1 (M : ptr -> ptr -> stmt) (x : block) : block :=
  get128 (M q p (put128 p x (enter ctx0))) q.

Definition run2 (M : ptr -> ptr -> stmt) (x y : block) : block :=
  get128 (M p q (put128 q y (put128 p x (enter ctx0)))) p.

Definition XOR128_blk : block -> block -> block := run2 XOR128.
Definition ROL128_blk (n : nat) : block -> block := run1 (fun b a => ROL128 b a n).
Definition SL1_blk : block -> block := run1 SL1.
Definition SL2_blk : block -> block := run1 SL2.
Definition A_blk : block -> block := run1 A.
Definition OF_blk : block -> block -> block := run2 OF.
Definition EF_blk : block -> block -> block := run2 EF.

(** Group [i] of four words of an array. *)
Definition blk (l : list Z) (i : nat) : block :=
  (nth (4 * i) l 0, nth (4 * i + 1) l 0, nth (4 * i + 2) l 0, nth (4 * i + 3) l 0).

(** ** Well-formed values *)

Definition byte_ok (z : Z) : Prop := 0 <= z < 256.
Definition word_ok (z : Z) : Prop := 0 <= z < 2 ^ 32.
Definition block_ok (x : block) : Prop :=
  let '(x0, x1, x2, x3) := x in word_ok x0 /\ word_ok x1 /\ word_ok x2 /\ word_ok x3.
Definition bytes_ok (l : list Z) : Prop := Forall byte_ok l.

(** The arrays have the sizes they are declared with. *)
Definition size (b : base) : nat :=
  match b with
  | Bw => 16 | Bt => 4 | Bp => 4 | Bq => 4 | Bek => 68 | Bdk => 68 | Bc => 12
  end%nat.

Definition ctx_ok (context : AriaContext) : Prop :=
  length (ek context) = 68%nat /\ length (dk context) = 68%nat.

Definition mem_ok (m : Mem) : Prop := forall b, length (buf m b) = size b.

Definition base_eqb (a b : base) : bool :=
  match a, b with
  | Bw, Bw | Bt, Bt | Bp, Bp | Bq, Bq | Bek, Bek | Bdk, Bdk | Bc, Bc => true
  | _, _ => false
  end.

(** [b] points to four words of a writable array. *)
Definition wr_ok (b : ptr) : bool :=
  negb (base_eqb (fst b) Bc) && (snd b + 4 <=? size (fst b))%nat.

(** The four words at [a] and the four words at [b] do not overlap. *)
Definition sepb (a b : ptr) : bool :=
  negb (base_eqb (fst a) (fst b)) || (snd a + 4 <=? snd b)%nat
  || (snd b + 4 <=? snd a)%nat.

(** [b] is one of the local arrays. *)
Definition local (b : ptr) : bool :=
  match fst b with Bek | Bdk => false | _ => true end.

(** An expression that does not read the four words at [y]. *)
Definition indep (y : ptr) (e : expr) : Prop :=
  forall i v m, (i < 4)%nat -> e (wr y i v m) = e m.

(** The memory holds the context [c], and the state [s] in the array [p]. *)
Definition holds (m : Mem) (c : AriaContext) (s : block) : Prop :=
  mem_ok m /\ m_ctx m = c /\ get128 m p = s.

(** ** The block transform of the code, on blocks

    What the unrolled rounds of [ariaEncryptBlock] and [ariaDecryptBlock]
    compute, written with the block functions above, that is, with the
    code's own [OF], [EF], [SL2] and [XOR128]. *)

(** Four big-endian words from sixteen bytes, and back. *)

Definition load_block (input : list Z) : block :=
  (LOAD32BE input 0, LOAD32BE input 4, LOAD32BE input 8, LOAD32BE input 12).

Definition store_bytes (x : block) (output : list Z) : list Z :=
  let '(x0, x1, x2, x3) := x in
  STORE32BE x3 (STORE32BE x2 (STORE32BE x1 (STORE32BE x0 output 0) 4) 8) 12.

(** Rounds [i], [i + 1], ..., [i + n - 1], by the code's own [OF] and [EF]. *)
Fixpoint rounds (n i : nat) (RK : nat -> block) (s : block) : block :=
  match n with
  | O => s
  | S n' =>
      rounds n' (S i) RK
        (if Nat.odd i then OF_blk s (RK (i - 1)%nat)
         else EF_blk s (RK (i - 1)%nat))
  end.

Definition crypt_code (n : nat) (RK : nat -> block) (input output : list Z)
  : list Z :=
  let s := load_block input in
  let s := rounds (n - 1) 1 RK s in
  let s := XOR128_blk (SL2_blk (XOR128_blk s (RK (n - 1)%nat))) (RK n) in
  store_bytes s output.

(** The body shared by [ariaEncryptBlock] and [ariaDecryptBlock], in its
    three parts, with the round keys read from the table at [rk]. *)
Definition crypt_load (input : list Z) : stmt :=
  assign p 0 (fun _ => LOAD32BE input 0) ;;
  assign p 1 (fun _ => LOAD32BE input 4) ;;
  assign p 2 (fun _ => LOAD32BE input 8) ;;
  assign p 3 (fun _ => LOAD32BE input 12).

Definition crypt_rounds (rk : ptr) : stmt :=
  OF p (rk +> 0) ;;
  EF p (rk +> 4) ;;
  OF p (rk +> 8) ;;
  EF p (rk +> 12) ;;
  OF p (rk +> 16) ;;
  EF p (rk +> 20) ;;
  OF p (rk +> 24) ;;
  EF p (rk +> 28) ;;
  OF p (rk +> 32) ;;
  EF p (rk +> 36) ;;
  OF p (rk +> 40).

Definition crypt_tail (rk : ptr) : stmt :=
  ifs (fun m => nr (m_ctx m) =? 12)
    (XOR128 p (rk +> 44) ;;
     SL2 q p ;;
     XOR128 q (rk +> 48))
    (ifs (fun m => nr (m_ctx m) =? 14)
       (EF p (rk +> 44) ;;
        OF p (rk +> 48) ;;
        XOR128 p (rk +> 52) ;;
        SL2 q p ;;
        XOR128 q (rk +> 56))
       (EF p (rk +> 44) ;;
        OF p (rk +> 48) ;;
        EF p (rk +> 52) ;;
        OF p (rk +> 56) ;;
        XOR128 p (rk +> 60) ;;
        SL2 q p ;;
        XOR128 q (rk +> 64))).

Definition crypt_mem (b : base) (input : list Z) : stmt :=
  fun m => crypt_tail (b, 0%nat) (crypt_rounds (b, 0%nat) (crypt_load input m)).

(** ** The key schedule of the code, on blocks *)

(** The round count and the word offsets of [CK1], [CK2], [CK3] in the
    constant table, by key length in bytes. *)
Definition nr_of (keyLen : Z) : Z :=
  if keyLen =? 16 then 12 else if keyLen =? 24 then 14 else 16.

Definition ck_offsets (keyLen : Z) : nat * nat * nat :=
  if keyLen =? 16 then (0, 4, 8)%nat
  else if keyLen =? 24 then (4, 8, 0)%nat
  else (8, 0, 4)%nat.

(** [KL] is [K[0..16]]; [KR] is [K[16..keyLen]], zero-padded on the right
    (a byte that is not there reads as zero). *)
Definition KL (key : list Z) : block := load_block key.
Definition KR (key : list Z) : block := load_block (skipn 16 key).

(** The intermediate values [W0], [W1], [W2], [W3], by the code's own [OF],
    [EF] and [XOR128]. *)
Definition W_code (key : list Z) (keyLen : Z) (i : nat) : block :=
  let '(o1, o2, o3) := ck_offsets keyLen in
  let CK1 := blk c (o1 / 4) in
  let CK2 := blk c (o2 / 4) in
  let CK3 := blk c (o3 / 4) in
  let W0 := KL key in
  let W1 := XOR128_blk (OF_blk W0 CK1) (KR key) in
  let W2 := XOR128_blk (EF_blk W1 CK2) W0 in
  let W3 := XOR128_blk (OF_blk W2 CK3) W1 in
  match i with
  | 0 => W0
  | 1 => W1
  | 2 => W2
  | _ => W3
  end%nat.

(** Round key [r] of 1..17 takes its source word from the cycle
    [W1, W2, W3, W0], its partner from the cycle [W0, W1, W2, W3], and its
    rotation from the group of four the round is in. *)
Definition rot_amount (r : nat) : nat :=
  if (r <=? 4)%nat then 109%nat
  else if (r <=? 8)%nat then 97%nat
  else if (r <=? 12)%nat then 61%nat
  else if (r <=? 16)%nat then 31%nat
  else 19%nat.

Definition W_src (W : nat -> block) (r : nat) : block := W (r mod 4)%nat.
Definition W_part (W : nat -> block) (r : nat) : block := W ((r - 1) mod 4)%nat.

(** Round key [r], by the code's own [ROL128] and [XOR128]. *)
Definition ek_code (W : nat -> block) (r : nat) : block :=
  XOR128_blk (ROL128_blk (rot_amount r) (W_src W r)) (W_part W r).

(** The block transform on blocks: [n - 1] full rounds and the final
    round, with the round keys [RK 0], ..., [RK n]. *)
Definition crypt_blk (n : nat) (RK : nat -> block) (s : block) : block :=
  XOR128_blk (SL2_blk (XOR128_blk (rounds (n - 1) 1 RK s) (RK (n - 1)%nat)))
    (RK n).

(** The substitution layer of a round, by the parity of the round. *)
Definition SL_blk (odd : bool) : block -> block :=
  if odd then SL1_blk else SL2_blk.

(** Two round-key tables of which each is the other one reversed, with the
    diffusion layer applied to all keys but the first and the last. *)
Definition mirrored (n : nat) (RK RK' : nat -> block) : Prop :=
  RK' 0%nat = RK n /\ RK' n = RK 0%nat /\
  forall i, (1 <= i < n)%nat -> RK' i = A_blk (RK (n - i)%nat).

(** ** The specification's words (sections 4.2 to 4.4)

    The round transforms, the key schedule and the block transform once
    more, this time from the text of the specification and not from the
    code: a state is sixteen bytes [X[0..15]], held in four big-endian
    words; XOR is the xor of the words; the substitution layers apply the
    four tables along the bytes; the diffusion layer xors seven input bytes
    into each output byte; a rotation is that of a 128-bit number. *)

(** [D XOR RK] *)
Definition xor128 (x y : block) : block :=
  let '(x0, x1, x2, x3) := x in
  let '(y0, y1, y2, y3) := y in
  (Z.lxor x0 y0, Z.lxor x1 y1, Z.lxor x2 y2, Z.lxor x3 y3).

(** The sixteen bytes of a state, and the state of sixteen bytes. *)
Definition state_bytes (x : block) : list Z := store_bytes x (repeat 0 16).
Definition state_of_bytes (X : list Z) : block := load_block X.

(** [Y[i] = T(X[i])], with [T] the table number [i mod 4] of the four. *)
Definition sub_bytes (tables : list (list Z)) (X : list Z) : list Z :=
  map (fun ib : nat * Z => at_ (nth (fst ib mod 4) tables []) (snd ib))
      (combine (seq 0 (length X)) X).

(** SL1: the pattern [SB1, SB2, SB3, SB4] *)
Definition SL1_spec (x : block) : block :=
  state_of_bytes (sub_bytes [sb1; sb2; sb3; sb4] (state_bytes x)).

(** SL2: the pattern [SB3, SB4, SB1, SB2] *)
Definition SL2_spec (x : block) : block :=
  state_of_bytes (sub_bytes [sb3; sb4; sb1; sb2] (state_bytes x)).

(** The seven input bytes of each output byte of the diffusion layer, as
    RFC 5794, section 2.4.3, to which the specification defers, lists
    them. *)
Definition A_rows : list (list nat) :=
  [ [3; 4; 6; 8; 9; 13; 14];
    [2; 5; 7; 8; 9; 12; 15];
    [1; 4; 6; 10; 11; 12; 15];
    [0; 5; 7; 10; 11; 13; 14];
    [0; 2; 5; 8; 11; 14; 15];
    [1; 3; 4; 9; 10; 14; 15];
    [0; 2; 7; 9; 10; 12; 13];
    [1; 3; 6; 8; 11; 12; 13];
    [0; 1; 4; 7; 10; 13; 15];
    [0; 1; 5; 6; 11; 12; 14];
    [2; 3; 5; 6; 8; 13; 15];
    [2; 3; 4; 7; 9; 12; 14];
    [1; 2; 6; 7; 9; 11; 12];
    [0; 3; 6; 7; 8; 10; 13];
    [0; 3; 4; 5; 9; 11; 14];
    [1; 2; 4; 5; 8; 10; 15] ]%nat.

Definition xor_all (l : list Z) : Z := fold_left Z.lxor l 0.

(** A: output byte [i] is the xor of the input bytes of row [i]. *)
Definition A_spec (x : block) : block :=
  let X := state_bytes x in
  state_of_bytes
    (map (fun row => xor_all (map (fun j => nth j X 0) row)) A_rows).

(** OF: [D <- A(SL1(D XOR RK))]; EF: [D <- A(SL2(D XOR RK))] *)
Definition OF_spec (d rk : block) : block := A_spec (SL1_spec (xor128 d rk)).
Definition EF_spec (d rk : block) : block := A_spec (SL2_spec (xor128 d rk)).

(** A block as a 128-bit number, first word most significant, and the
    rotation of a 128-bit number to the left. *)
Definition Z_of_block (x : block) : Z :=
  let '(x0, x1, x2, x3) := x in
  Z.shiftl x0 96 ||| Z.shiftl x1 64 ||| Z.shiftl x2 32 ||| x3.

Definition block_of_Z (z : Z) : block :=
  (Z.land (Z.shiftr z 96) (Z.ones 32), Z.land (Z.shiftr z 64) (Z.ones 32),
   Z.land (Z.shiftr z 32) (Z.ones 32), Z.land z (Z.ones 32)).

Definition rotl128 (x : block) (n : Z) : block :=
  let z := Z_of_block x in
  block_of_Z (Z.land (Z.shiftl z n ||| Z.shiftr z (128 - n)) (Z.ones 128)).

(** Section 4.3, step 3: [W0 = KL], [W1 = OF(W0, CK1) XOR KR],
    [W2 = EF(W1, CK2) XOR W0], [W3 = OF(W2, CK3) XOR W1]. *)
Definition W_spec (key : list Z) (keyLen : Z) (i : nat) : block :=
  let '(o1, o2, o3) := ck_offsets keyLen in
  let CK1 := blk c (o1 / 4) in
  let CK2 := blk c (o2 / 4) in
  let CK3 := blk c (o3 / 4) in
  let W0 := KL key in
  let W1 := xor128 (OF_spec W0 CK1) (KR key) in
  let W2 := xor128 (EF_spec W1 CK2) W0 in
  let W3 := xor128 (OF_spec W2 CK3) W1 in
  match i with
  | 0 => W0
  | 1 => W1
  | 2 => W2
  | _ => W3
  end%nat.

(** Section 4.3, step 4: round key [r] of 1..17 is the source word, rotated
    left by the amount of its group, xored with the partner word. *)
Definition ek_spec (W : nat -> block) (r : nat) : block :=
  xor128 (rotl128 (W_src W r) (Z.of_nat (rot_amount r))) (W_part W r).

(** Section 4.4: rounds [i], [i + 1], ..., [i + n - 1], round [i] being
    [OF] for odd [i] and [EF] for even [i], with the round key
    [RK[i - 1]]. *)
Fixpoint rounds_spec (n i : nat) (RK : nat -> block) (s : block) : block :=
  match n with
  | O => s
  | S n' =>
      rounds_spec n' (S i) RK
        (if Nat.odd i then OF_spec s (RK (i - 1)%nat)
         else EF_spec s (RK (i - 1)%nat))
  end.

(** Section 4.4: load four big-endian words; apply [nr - 1] full rounds;
    apply the final round [SL2(S XOR RK[nr - 1]) XOR RK[nr]], which has no
    diffusion layer; store the state as sixteen bytes. *)
Definition crypt_spec (n : nat) (RK : nat -> block) (input output : list Z)
  : list Z :=
  let s := load_block input in
  let s := rounds_spec (n - 1) 1 RK s in
  let s := xor128 (SL2_spec (xor128 s (RK (n - 1)%nat))) (RK n) in
  store_bytes s output.

(** [bytes_ok], decided. *)
Definition bytes_okb (l : list Z) : bool :=
  forallb (fun z => (0 <=? z) && (z <? 256)) l.

(** A pointer into one of the local arrays. *)
Definition is_local (a : ptr) : Prop := local a = true.

(** Every byte value. *)
Definition all_bytes : list Z := map Z.of_nat (seq 0 256).

(** The memory a successful [ariaInit] leaves behind, local arrays
    included. *)
Record scheduled (keyLen : Z) (key : list Z) (m : Mem) : Prop := {
  sch_ok : mem_ok m;
  sch_nr : nr (m_ctx m) = nr_of keyLen;
  sch_w : forall k, (k < 4)%nat -> blk (buf m Bw) k = W_code key keyLen k;
  sch_ek : forall r, (1 <= r <= 17)%nat ->
             blk (ek (m_ctx m)) (r - 1) = ek_code (W_code key keyLen) r;
  sch_dk0 : blk (dk (m_ctx m)) 0 = blk (ek (m_ctx m)) (Z.to_nat (nr_of keyLen));
  sch_dk : forall i, (1 <= i < Z.to_nat (nr_of keyLen))%nat ->
             blk (dk (m_ctx m)) i =
             A_blk (blk (ek (m_ctx m)) (Z.to_nat (nr_of keyLen) - i));
  sch_dkn : blk (dk (m_ctx m)) (Z.to_nat (nr_of keyLen)) = blk (ek (m_ctx m)) 0
}.

(** What a successful [ariaInit] leaves in the context. *)
Record initialised (keyLen : Z) (key : list Z) (ctx : AriaContext) : Prop := {
  ini_ok : ctx_ok ctx;
  ini_nr : nr ctx = nr_of keyLen;
  ini_nr_cases : nr ctx = 12 \/ nr ctx = 14 \/ nr ctx = 16;
  ini_ek : forall r, (1 <= r <= 17)%nat ->
           blk (ek ctx) (r - 1) = ek_code (W_code key keyLen) r;
  ini_dk : mirrored (Z.to_nat (nr ctx)) (blk (ek ctx)) (blk (dk ctx))
}.

(** ** Frames *)

(** A statement that leaves the context as it is, and one that leaves the
    round count as it is. *)
Definition keeps_ctx (s : stmt) : Prop := forall m, m_ctx (s m) = m_ctx m.
Definition keeps_nr (s : stmt) : Prop :=
  forall m, nr (m_ctx (s m)) = nr (m_ctx m).

(** A statement that leaves word [j] of the table [dk] as it is, and a
    pointer whose four words are not word [j] of [dk]. *)
Definition keeps_dk_word (j : nat) (s : stmt) : Prop :=
  forall m, nth j (dk (m_ctx (s m))) 0 = nth j (dk (m_ctx m)) 0.
Definition off_dk_word (j : nat) (a : ptr) : Prop :=
  fst a <> Bdk \/ (snd a + 4 <= j)%nat.

(** ** RFC 5794 test data *)

Definition key_bytes (n : nat) : list Z := map Z.of_nat (seq 0 n).
Definition plain : list Z :=
  [0x00; 0x11; 0x22; 0x33; 0x44; 0x55; 0x66; 0x77;
   0x88; 0x99; 0xAA; 0xBB; 0xCC; 0xDD; 0xEE; 0xFF].
Definition out0 : list Z := repeat 0 16.

Definition encrypt_with (key : list Z) (input : list Z) : option (list Z) :=
  match ariaInit (Some ctx0) (Some key) (Z.of_nat (length key)) with
  | (NO_ERROR, Some ctx) => Some (snd (ariaEncryptBlock ctx input out0))
  | _ => None
  end.

(** ** Arrays *)

Lemma length_upd i v l : length (upd i v l) = length l.
Proof.
  revert i; induction l as [|x l IH]; intros [|i]; simpl; auto.
Qed.

Lemma nth_upd_same i v l d : (i < length l)%nat -> nth i (upd i v l) d = v.
Proof.
  revert i; induction l as [|x l IH]; intros [|i] H; simpl in *; try lia; auto.
  apply IH; lia.
Qed.

Lemma nth_upd_other i j v l d : i <> j -> nth i (upd j v l) d = nth i l d.
Proof.
  revert i j; induction l as [|x l IH]; intros [|i] [|j] H; simpl; auto; try lia.
Qed.

Lemma upd_upd_same i v1 v2 l : upd i v2 (upd i v1 l) = upd i v2 l.
Proof.
  revert i; induction l as [|x l IH]; intros [|i]; simpl; auto.
  now rewrite IH.
Qed.

(** ** Memory *)

Lemma base_eqb_eq a b : base_eqb a b = true <-> a = b.
Proof. destruct a, b; simpl; split; intros H; try discriminate; auto. Qed.

Lemma base_eqb_refl a : base_eqb a a = true.
Proof. now destruct a. Qed.

Lemma buf_set_buf_same b l m : b <> Bc -> buf (set_buf b l m) b = l.
Proof. destruct b; simpl; auto; congruence. Qed.

Lemma buf_set_buf_other b b' l m : b' <> b -> buf (set_buf b l m) b' = buf m b'.
Proof. destruct b, b'; simpl; auto; congruence. Qed.

Lemma mem_ok_wr b i v m : mem_ok m -> mem_ok (wr b i v m).
Proof.
  intros H b'. unfold wr.
  destruct b as [b o]; simpl.
  destruct b, b'; simpl; rewrite ?length_upd; try apply (H Bw); try apply (H Bt);
    try apply (H Bp); try apply (H Bq); try apply (H Bek); try apply (H Bdk);
    try apply (H Bc).
Qed.

Lemma nr_wr b i v m : nr (m_ctx (wr b i v m)) = nr (m_ctx m).
Proof. destruct b as [[] o]; reflexivity. Qed.

Lemma rd_wr_same b i v m :
  mem_ok m -> fst b <> Bc -> (snd b + i < size (fst b))%nat ->
  rd (wr b i v m) b i = v.
Proof.
  intros Hm Hb Hi. unfold rd, wr.
  rewrite buf_set_buf_same by assumption.
  apply nth_upd_same. now rewrite Hm.
Qed.

Lemma rd_wr_other a j b i v m :
  fst a <> fst b \/ (snd a + j)%nat <> (snd b + i)%nat ->
  rd (wr b i v m) a j = rd m a j.
Proof.
  intros H. unfold rd, wr.
  destruct (base_eqb (fst a) (fst b)) eqn:E.
  - apply base_eqb_eq in E. rewrite E in *.
    destruct H as [H|H]; [congruence|].
    destruct (fst b) eqn:Eb; simpl; try (now apply nth_upd_other); reflexivity.
  - assert (fst a <> fst b) by (intros Heq; rewrite Heq, base_eqb_refl in E; discriminate).
    now rewrite buf_set_buf_other.
Qed.

Lemma wr_wr_same b i v1 v2 m : wr b i v2 (wr b i v1 m) = wr b i v2 m.
Proof.
  unfold wr. destruct b as [[] o]; simpl; rewrite ?upd_upd_same; reflexivity.
Qed.

Lemma ctx_wr_local b i v m : local b = true -> m_ctx (wr b i v m) = m_ctx m.
Proof. destruct b as [[] o]; simpl; intros H; try discriminate; reflexivity. Qed.

(** ** Blocks in memory *)

Lemma mem_ok_put b x m : mem_ok m -> mem_ok (put128 b x m).
Proof.
  destruct x as [[[x0 x1] x2] x3]. intros H. unfold put128.
  now repeat apply mem_ok_wr.
Qed.

Lemma nr_put b x m : nr (m_ctx (put128 b x m)) = nr (m_ctx m).
Proof.
  destruct x as [[[x0 x1] x2] x3]. unfold put128. now rewrite !nr_wr.
Qed.

Lemma wr_ok_elim b :
  wr_ok b = true -> fst b <> Bc /\ (snd b + 4 <= size (fst b))%nat.
Proof.
  unfold wr_ok. rewrite andb_true_iff, negb_true_iff, Nat.leb_le.
  intros [H1 H2]; split; auto.
  intros E; rewrite E in H1; discriminate.
Qed.

Lemma sepb_elim a b i j :
  sepb a b = true -> (i < 4)%nat -> (j < 4)%nat ->
  fst a <> fst b \/ (snd a + i)%nat <> (snd b + j)%nat.
Proof.
  unfold sepb. rewrite !orb_true_iff, negb_true_iff, !Nat.leb_le.
  intros [[H|H]|H] Hi Hj.
  - left. intros E; rewrite E, base_eqb_refl in H; discriminate.
  - right; lia.
  - right; lia.
Qed.

Lemma sepb_sym a b : sepb a b = sepb b a.
Proof.
  unfold sepb. destruct (fst a), (fst b); simpl;
    try reflexivity; apply orb_comm.
Qed.

Lemma rd_put_sep a j b x m :
  sepb a b = true -> (j < 4)%nat -> rd (put128 b x m) a j = rd m a j.
Proof.
  intros H Hj. destruct x as [[[x0 x1] x2] x3]. unfold put128.
  rewrite !rd_wr_other; auto; apply sepb_elim; auto.
Qed.

Lemma get_put_sep a b x m :
  sepb a b = true -> get128 (put128 b x m) a = get128 m a.
Proof.
  intros H. unfold get128. now rewrite !rd_put_sep by (auto; lia).
Qed.

Lemma get_put_same b x m :
  mem_ok m -> wr_ok b = true -> get128 (put128 b x m) b = x.
Proof.
  intros Hm Hb. apply wr_ok_elim in Hb. destruct Hb as [Hb Hs].
  destruct x as [[[x0 x1] x2] x3]. unfold get128, put128.
  rewrite (rd_wr_same b 3) by (auto using mem_ok_wr; lia).
  rewrite (rd_wr_other b 2 b 3) by (right; lia).
  rewrite (rd_wr_same b 2) by (auto using mem_ok_wr; lia).
  rewrite !(rd_wr_other b 1) by (right; lia).
  rewrite (rd_wr_same b 1) by (auto using mem_ok_wr; lia).
  rewrite !(rd_wr_other b 0) by (right; lia).
  rewrite (rd_wr_same b 0) by (auto using mem_ok_wr; lia).
  reflexivity.
Qed.

Lemma ctx_put_local b x m : local b = true -> m_ctx (put128 b x m) = m_ctx m.
Proof.
  intros H. destruct x as [[[x0 x1] x2] x3]. unfold put128.
  now rewrite !ctx_wr_local.
Qed.

(** ** The macros as block functions *)

Ltac run_blk :=
  cbv [XOR128_blk ROL128_blk SL1_blk SL2_blk A_blk run1 run2
       MOV128 XOR128 ROL128 SL1 SL2 A sub shl X7 X
       seqs assign assign_or assign_xor get128 put128 wr rd t q p enter set_buf buf
       fst snd upd nth repeat Nat.add Nat.div Nat.modulo Nat.divmod Nat.sub Nat.mul
       m_ctx m_w m_t m_p m_q ek dk nr Z.of_nat Pos.of_succ_nat Pos.succ].

Ltac run_blk_in H :=
  cbv [XOR128_blk ROL128_blk SL1_blk SL2_blk A_blk run1 run2
       MOV128 XOR128 ROL128 SL1 SL2 A sub shl X7 X
       seqs assign assign_or assign_xor get128 put128 wr rd t q p enter set_buf buf
       fst snd upd nth repeat Nat.add Nat.div Nat.modulo Nat.divmod Nat.sub Nat.mul
       m_ctx m_w m_t m_p m_q ek dk nr Z.of_nat Pos.of_succ_nat Pos.succ] in H.

Ltac run_expr :=
  cbv [sub shl X7 X Nat.add Nat.div Nat.modulo Nat.divmod Nat.sub Nat.mul
       Z.of_nat Pos.of_succ_nat Pos.succ get128 fst snd].

Lemma indep_rd y x j : sepb x y = true -> (j < 4)%nat -> indep y (fun m => rd m x j).
Proof.
  intros H Hj i v m Hi. apply rd_wr_other. now apply sepb_elim.
Qed.

Lemma indep_X y x n : sepb x y = true -> (n < 16)%nat -> indep y (X x n).
Proof.
  intros H Hn i v m Hi. unfold X.
  rewrite rd_wr_other; auto.
  apply sepb_elim; auto.
  apply Nat.Div0.div_lt_upper_bound; lia.
Qed.

Lemma indep_sub y tbl x n k :
  sepb x y = true -> (n < 16)%nat -> indep y (sub tbl x n k).
Proof.
  intros H Hn i v m Hi. unfold sub. now rewrite (indep_X y x n H Hn).
Qed.

Lemma indep_at y tbl x n :
  sepb x y = true -> (n < 16)%nat -> indep y (fun m => at_ tbl (X x n m)).
Proof.
  intros H Hn i v m Hi. now rewrite (indep_X y x n H Hn).
Qed.

Lemma indep_X7 y x n0 n1 n2 n3 n4 n5 n6 :
  sepb x y = true ->
  (n0 < 16 /\ n1 < 16 /\ n2 < 16 /\ n3 < 16 /\ n4 < 16 /\ n5 < 16 /\ n6 < 16)%nat ->
  indep y (X7 x n0 n1 n2 n3 n4 n5 n6).
Proof.
  intros H Hn i v m Hi. unfold X7.
  now rewrite !(indep_X y x _ H) by lia.
Qed.

Lemma indep_shl y e k : indep y e -> indep y (shl e k).
Proof. intros H i v m Hi. unfold shl. now rewrite H. Qed.

Ltac side := solve [lia | assumption | repeat apply mem_ok_wr; assumption].

(** One word built by an assignment and three [|=]. *)
Lemma build4 y k e0 e1 e2 e3 m :
  mem_ok m -> wr_ok y = true -> (k < 4)%nat ->
  indep y e0 -> indep y e1 -> indep y e2 -> indep y e3 ->
  assign_or y k e3 (assign_or y k e2 (assign_or y k e1 (assign y k e0 m))) =
  wr y k (e0 m ||| e1 m ||| e2 m ||| e3 m) m.
Proof.
  intros Hm Hy Hk H0 H1 H2 H3.
  apply wr_ok_elim in Hy. destruct Hy as [Hb Hs].
  unfold assign_or, assign.
  repeat first [ rewrite H1 by lia | rewrite H2 by lia | rewrite H3 by lia
               | rewrite wr_wr_same | rewrite (rd_wr_same y k) by side ].
  reflexivity.
Qed.

Section Build16.
Variables (y : ptr) (m : Mem).
Variables e00 e01 e02 e03 e10 e11 e12 e13 e20 e21 e22 e23 e30 e31 e32 e33 : expr.
Hypothesis Hm : mem_ok m.
Hypothesis Hy : wr_ok y = true.
Hypothesis H00 : indep y e00. Hypothesis H01 : indep y e01.
Hypothesis H02 : indep y e02. Hypothesis H03 : indep y e03.
Hypothesis H10 : indep y e10. Hypothesis H11 : indep y e11.
Hypothesis H12 : indep y e12. Hypothesis H13 : indep y e13.
Hypothesis H20 : indep y e20. Hypothesis H21 : indep y e21.
Hypothesis H22 : indep y e22. Hypothesis H23 : indep y e23.
Hypothesis H30 : indep y e30. Hypothesis H31 : indep y e31.
Hypothesis H32 : indep y e32. Hypothesis H33 : indep y e33.

(** The shape shared by [SL1], [SL2] and [A]: sixteen statements build
    four words from expressions that do not read the destination. *)
Lemma build16 :
  (assign y 0 e00 ;; assign_or y 0 e01 ;; assign_or y 0 e02 ;; assign_or y 0 e03 ;;
   assign y 1 e10 ;; assign_or y 1 e11 ;; assign_or y 1 e12 ;; assign_or y 1 e13 ;;
   assign y 2 e20 ;; assign_or y 2 e21 ;; assign_or y 2 e22 ;; assign_or y 2 e23 ;;
   assign y 3 e30 ;; assign_or y 3 e31 ;; assign_or y 3 e32 ;; assign_or y 3 e33) m =
  put128 y (e00 m ||| e01 m ||| e02 m ||| e03 m,
            e10 m ||| e11 m ||| e12 m ||| e13 m,
            e20 m ||| e21 m ||| e22 m ||| e23 m,
            e30 m ||| e31 m ||| e32 m ||| e33 m) m.
Proof.
  unfold seqs, put128.
  rewrite (build4 y 0) by side.
  rewrite (build4 y 1) by side.
  rewrite (build4 y 2) by side.
  rewrite (build4 y 3) by side.
  rewrite (H10 0%nat), (H11 0%nat), (H12 0%nat), (H13 0%nat) by lia.
  rewrite !(H20 1%nat), !(H21 1%nat), !(H22 1%nat), !(H23 1%nat) by lia.
  rewrite !(H20 0%nat), !(H21 0%nat), !(H22 0%nat), !(H23 0%nat) by lia.
  rewrite !(H30 2%nat), !(H31 2%nat), !(H32 2%nat), !(H33 2%nat) by lia.
  rewrite !(H30 1%nat), !(H31 1%nat), !(H32 1%nat), !(H33 1%nat) by lia.
  rewrite !(H30 0%nat), !(H31 0%nat), !(H32 0%nat), !(H33 0%nat) by lia.
  reflexivity.
Qed.
End Build16.

Ltac indep_tac :=
  solve [ apply indep_shl; apply indep_X7; [assumption | lia]
        | apply indep_X7; [assumption | lia]
        | apply indep_sub; [assumption | lia]
        | apply indep_at; [assumption | lia] ].

Lemma SL1_sem b a m :
  mem_ok m -> wr_ok b = true -> sepb a b = true ->
  SL1 b a m = put128 b (SL1_blk (get128 m a)) m.
Proof.
  intros Hm Hb Hs. unfold SL1.
  rewrite build16 by (assumption || indep_tac).
  run_expr.
  generalize (rd m a 0) (rd m a 1) (rd m a 2) (rd m a 3); intros x0 x1 x2 x3.
  apply (f_equal (fun v => put128 b v m)).
  run_blk. reflexivity.
Qed.

Lemma SL2_sem b a m :
  mem_ok m -> wr_ok b = true -> sepb a b = true ->
  SL2 b a m = put128 b (SL2_blk (get128 m a)) m.
Proof.
  intros Hm Hb Hs. unfold SL2.
  rewrite build16 by (assumption || indep_tac).
  run_expr.
  generalize (rd m a 0) (rd m a 1) (rd m a 2) (rd m a 3); intros x0 x1 x2 x3.
  apply (f_equal (fun v => put128 b v m)).
  run_blk. reflexivity.
Qed.

Lemma A_sem b a m :
  mem_ok m -> wr_ok b = true -> sepb a b = true ->
  A b a m = put128 b (A_blk (get128 m a)) m.
Proof.
  intros Hm Hb Hs. unfold A.
  rewrite build16 by (assumption || indep_tac).
  run_expr.
  generalize (rd m a 0) (rd m a 1) (rd m a 2) (rd m a 3); intros x0 x1 x2 x3.
  apply (f_equal (fun v => put128 b v m)).
  run_blk. reflexivity.
Qed.

Lemma MOV128_sem b a m :
  mem_ok m -> wr_ok b = true -> sepb a b = true ->
  MOV128 b a m = put128 b (get128 m a) m.
Proof.
  intros Hm Hb Hs. unfold MOV128, seqs, assign, put128, get128.
  now rewrite !rd_wr_other by (apply sepb_elim; auto; lia).
Qed.

Lemma XOR128_sem b a m :
  mem_ok m -> wr_ok b = true -> sepb a b = true ->
  XOR128 b a m = put128 b (XOR128_blk (get128 m b) (get128 m a)) m.
Proof.
  intros Hm Hb Hs. unfold XOR128, seqs, assign_xor, get128.
  rewrite !(rd_wr_other a) by (apply sepb_elim; auto; lia).
  rewrite !(rd_wr_other b) by (right; lia).
  reflexivity.
Qed.

Lemma ROL128_sem b a n m :
  mem_ok m -> wr_ok b = true -> sepb a b = true ->
  n = 109%nat \/ n = 97%nat \/ n = 61%nat \/ n = 31%nat \/ n = 19%nat ->
  ROL128 b a n m = put128 b (ROL128_blk n (get128 m a)) m.
Proof.
  intros Hm Hb Hs Hn.
  destruct Hn as [-> | [-> | [-> | [-> | ->]]]];
    unfold ROL128, seqs, assign, get128;
    cbv [Nat.add Nat.div Nat.modulo Nat.divmod Nat.sub fst snd];
    rewrite !(rd_wr_other a) by (apply sepb_elim; auto; lia);
    reflexivity.
Qed.

Lemma mem_ok_enter c : ctx_ok c -> mem_ok (enter c).
Proof. intros [H1 H2] []; simpl; auto. Qed.

Lemma ctx_ok_ctx0 : ctx_ok ctx0.
Proof. split; reflexivity. Qed.

Lemma mem_ok_ctx m : mem_ok m -> ctx_ok (m_ctx m).
Proof. intros H; split; [apply (H Bek) | apply (H Bdk)]. Qed.

Lemma mem_ok_set_nr n m : mem_ok m -> mem_ok (set_nr n m).
Proof. intros H b; destruct b; simpl; first [apply (H Bw) | apply (H Bt) | apply (H Bp) | apply (H Bq) | apply (H Bek) | apply (H Bdk) | apply (H Bc)]. Qed.

Ltac mem_ok_step :=
  lazymatch goal with
  | H : mem_ok ?m |- mem_ok ?m => exact H
  | |- mem_ok (put128 _ _ _) => apply mem_ok_put
  | |- mem_ok (wr _ _ _ _) => apply mem_ok_wr
  | |- mem_ok (set_nr _ _) => apply mem_ok_set_nr
  | |- mem_ok (enter _) =>
      apply mem_ok_enter; first [assumption | apply ctx_ok_ctx0]
  end.
Ltac mem_ok_tac := solve [repeat mem_ok_step].

(** ** Round functions *)

Lemma round_sem (SL : ptr -> ptr -> stmt) (SL_blk : block -> block)
  (SL_sem : forall b a m, mem_ok m -> wr_ok b = true -> sepb a b = true ->
                          SL b a m = put128 b (SL_blk (get128 m a)) m)
  d rk m :
  mem_ok m -> wr_ok d = true -> sepb rk d = true -> sepb d t = true ->
  (XOR128 d rk ;; SL t d ;; A d t) m =
  let x := XOR128_blk (get128 m d) (get128 m rk) in
  put128 d (A_blk (SL_blk x)) (put128 t (SL_blk x) (put128 d x m)).
Proof.
  intros Hm Hd Hrk Hdt. unfold seqs.
  rewrite XOR128_sem by assumption.
  rewrite SL_sem by (mem_ok_tac || assumption || reflexivity).
  rewrite get_put_same by assumption.
  rewrite A_sem by (mem_ok_tac || assumption || (rewrite sepb_sym; assumption)).
  rewrite get_put_same by (mem_ok_tac || reflexivity).
  reflexivity.
Qed.

Lemma OF_sem d rk m :
  mem_ok m -> wr_ok d = true -> sepb rk d = true -> sepb d t = true ->
  OF d rk m =
  let x := XOR128_blk (get128 m d) (get128 m rk) in
  put128 d (A_blk (SL1_blk x)) (put128 t (SL1_blk x) (put128 d x m)).
Proof. apply (round_sem SL1 SL1_blk SL1_sem). Qed.

Lemma EF_sem d rk m :
  mem_ok m -> wr_ok d = true -> sepb rk d = true -> sepb d t = true ->
  EF d rk m =
  let x := XOR128_blk (get128 m d) (get128 m rk) in
  put128 d (A_blk (SL2_blk x)) (put128 t (SL2_blk x) (put128 d x m)).
Proof. apply (round_sem SL2 SL2_blk SL2_sem). Qed.

Lemma run2_args x y :
  let m := put128 q y (put128 p x (enter ctx0)) in
  mem_ok m /\ get128 m p = x /\ get128 m q = y.
Proof.
  intros m. subst m. split; [mem_ok_tac|]. split.
  - rewrite get_put_sep by reflexivity. apply get_put_same; [mem_ok_tac | reflexivity].
  - apply get_put_same; [mem_ok_tac | reflexivity].
Qed.

(** [OF] is the key addition, then [SL1], then the diffusion layer. *)
Lemma OF_blk_eq x k : OF_blk x k = A_blk (SL1_blk (XOR128_blk x k)).
Proof.
  unfold OF_blk, run2.
  destruct (run2_args x k) as (Hm & Hp & Hq).
  rewrite OF_sem by (assumption || reflexivity).
  cbv zeta. rewrite get_put_same by (mem_ok_tac || reflexivity).
  now rewrite Hp, Hq.
Qed.

(** [EF] is the key addition, then [SL2], then the diffusion layer. *)
Lemma EF_blk_eq x k : EF_blk x k = A_blk (SL2_blk (XOR128_blk x k)).
Proof.
  unfold EF_blk, run2.
  destruct (run2_args x k) as (Hm & Hp & Hq).
  rewrite EF_sem by (assumption || reflexivity).
  cbv zeta. rewrite get_put_same by (mem_ok_tac || reflexivity).
  now rewrite Hp, Hq.
Qed.

(** ** A round on the state array [p] of the block functions *)

Lemma get128_blk m b o : get128 m (b, (4 * o)%nat) = blk (buf m b) o.
Proof.
  unfold get128, rd, blk. cbn [fst snd]. now rewrite Nat.add_0_r.
Qed.

Lemma OF_holds m c s rk :
  holds m c s -> local rk = false -> 
  holds (OF p rk m) c (OF_blk s (get128 m rk)).
Proof.
  intros (Hm & Hc & Hs) Hrk.
  assert (Hsep : sepb rk p = true) by (destruct rk as [[] o]; try discriminate; reflexivity).
  rewrite OF_sem by (assumption || reflexivity). cbv zeta.
  split; [mem_ok_tac|]. split.
  - now rewrite !ctx_put_local by reflexivity.
  - rewrite get_put_same by (mem_ok_tac || reflexivity).
    now rewrite OF_blk_eq, Hs.
Qed.

Lemma EF_holds m c s rk :
  holds m c s -> local rk = false -> 
  holds (EF p rk m) c (EF_blk s (get128 m rk)).
Proof.
  intros (Hm & Hc & Hs) Hrk.
  assert (Hsep : sepb rk p = true) by (destruct rk as [[] o]; try discriminate; reflexivity).
  rewrite EF_sem by (assumption || reflexivity). cbv zeta.
  split; [mem_ok_tac|]. split.
  - now rewrite !ctx_put_local by reflexivity.
  - rewrite get_put_same by (mem_ok_tac || reflexivity).
    now rewrite EF_blk_eq, Hs.
Qed.

(** A round whose key is group [i] of the table [b] of the context. *)
Lemma OF_round b o i m c s :
  o = (4 * i)%nat -> holds m c s -> local (b, 0%nat) = false ->
  holds (OF p ((b, 0%nat) +> o) m) c (OF_blk s (blk (buf (enter c) b) i)).
Proof.
  intros -> H Hb. pose proof (OF_holds m c s ((b, 0%nat) +> 4 * i) H Hb) as H'.
  unfold padd in *. cbn [fst snd Nat.add] in *. rewrite get128_blk in H'.
  destruct H as (_ & Hc & _). subst c.
  destruct b; try discriminate; exact H'.
Qed.

Lemma EF_round b o i m c s :
  o = (4 * i)%nat -> holds m c s -> local (b, 0%nat) = false ->
  holds (EF p ((b, 0%nat) +> o) m) c (EF_blk s (blk (buf (enter c) b) i)).
Proof.
  intros -> H Hb. pose proof (EF_holds m c s ((b, 0%nat) +> 4 * i) H Hb) as H'.
  unfold padd in *. cbn [fst snd Nat.add] in *. rewrite get128_blk in H'.
  destruct H as (_ & Hc & _). subst c.
  destruct b; try discriminate; exact H'.
Qed.

(** The final round, which leaves its result in [q]. *)
Lemma final_round b o o' i j m c s :
  o = (4 * i)%nat -> o' = (4 * j)%nat ->
  holds m c s -> local (b, 0%nat) = false ->
  let m' := (XOR128 p ((b, 0%nat) +> o) ;; SL2 q p ;;
             XOR128 q ((b, 0%nat) +> o')) m in
  m_ctx m' = c /\
  get128 m' q =
    XOR128_blk (SL2_blk (XOR128_blk s (blk (buf (enter c) b) i)))
      (blk (buf (enter c) b) j).
Proof.
  intros -> -> (Hm & Hc & Hs) Hb m'. subst m'. unfold seqs, padd.
  cbn [fst snd Nat.add].
  assert (Hp : forall o, sepb (b, o) p = true) by (destruct b; try discriminate; reflexivity).
  assert (Hq : forall o, sepb (b, o) q = true) by (destruct b; try discriminate; reflexivity).
  rewrite (XOR128_sem p) by (assumption || reflexivity || apply Hp).
  rewrite SL2_sem by (mem_ok_tac || reflexivity).
  rewrite get_put_same by (assumption || reflexivity).
  rewrite (XOR128_sem q) by (mem_ok_tac || reflexivity || apply Hq).
  rewrite (get_put_same q) by (mem_ok_tac || reflexivity).
  rewrite !(get_put_sep (b, _)) by auto.
  rewrite !ctx_put_local by reflexivity.
  rewrite get_put_same by (mem_ok_tac || reflexivity).
  rewrite Hs, !get128_blk. split; [assumption|].
  subst c. destruct b; try discriminate; reflexivity.
Qed.

Lemma store_block_eq m output : store_block m output = store_bytes (get128 m q) output.
Proof. reflexivity. Qed.

Lemma load_holds c input :
  ctx_ok c -> holds (crypt_load input (enter c)) c (load_block input).
Proof.
  intros Hc.
  change (holds (put128 p (load_block input) (enter c)) c (load_block input)).
  split; [mem_ok_tac|]. split.
  - now rewrite ctx_put_local.
  - apply get_put_same; [mem_ok_tac | reflexivity].
Qed.

Lemma seqs_app f g m : (f ;; g) m = g (f m).
Proof. reflexivity. Qed.

Lemma ifs_true cond a b m : cond m = true -> ifs cond a b m = a m.
Proof. unfold ifs. now intros ->. Qed.

Lemma ifs_false cond a b m : cond m = false -> ifs cond a b m = b m.
Proof. unfold ifs. now intros ->. Qed.

(** Rounds 1 to 11, which every key length goes through. *)
Lemma rounds11 b m c s :
  holds m c s -> local (b, 0%nat) = false ->
  holds (crypt_rounds (b, 0%nat) m) c (rounds 11 1 (blk (buf (enter c) b)) s).
Proof.
  intros H Hb. unfold crypt_rounds. rewrite !seqs_app.
  apply (OF_round b 0 0 _ _ _ eq_refl) in H; [|assumption].
  apply (EF_round b 4 1 _ _ _ eq_refl) in H; [|assumption].
  apply (OF_round b 8 2 _ _ _ eq_refl) in H; [|assumption].
  apply (EF_round b 12 3 _ _ _ eq_refl) in H; [|assumption].
  apply (OF_round b 16 4 _ _ _ eq_refl) in H; [|assumption].
  apply (EF_round b 20 5 _ _ _ eq_refl) in H; [|assumption].
  apply (OF_round b 24 6 _ _ _ eq_refl) in H; [|assumption].
  apply (EF_round b 28 7 _ _ _ eq_refl) in H; [|assumption].
  apply (OF_round b 32 8 _ _ _ eq_refl) in H; [|assumption].
  apply (EF_round b 36 9 _ _ _ eq_refl) in H; [|assumption].
  apply (OF_round b 40 10 _ _ _ eq_refl) in H; [|assumption].
  exact H.
Qed.

(** Two more rounds, [EF] then [OF], from round [i + 1] on. *)
Lemma rounds2 b o o' i m c s :
  o = (4 * i)%nat -> o' = (4 * S i)%nat -> Nat.odd i = true ->
  holds m c s -> local (b, 0%nat) = false ->
  holds ((EF p ((b, 0%nat) +> o) ;; OF p ((b, 0%nat) +> o')) m) c
    (rounds 2 (S i) (blk (buf (enter c) b)) s).
Proof.
  intros Ho Ho' Hi H Hb. unfold seqs.
  apply (EF_round b o i _ _ _ Ho) in H; [|assumption].
  apply (OF_round b o' (S i) _ _ _ Ho') in H; [|assumption].
  assert (E1 : Nat.odd (S i) = false)
    by (now rewrite Nat.odd_succ, <- Nat.negb_odd, Hi).
  assert (E2 : Nat.odd (S (S i)) = true)
    by (now rewrite Nat.odd_succ, Nat.even_succ).
  cbn [rounds]. rewrite E1, E2.
  cbn [Nat.sub]. now rewrite Nat.sub_0_r.
Qed.

Lemma rounds_app n n' i RK s :
  rounds n' (n + i) RK (rounds n i RK s) = rounds (n + n') i RK s.
Proof.
  revert i s; induction n as [|n IH]; intros i s; cbn [rounds Nat.add]; auto.
  rewrite <- IH. now rewrite Nat.add_succ_r.
Qed.

(** The body shared by [ariaEncryptBlock] and [ariaDecryptBlock], with
    the round keys in the table [b] of the context. *)
(** The rounds after the eleventh, by round count. *)
Lemma crypt_tail_spec b c m s :
  holds m c s -> local (b, 0%nat) = false ->
  nr c = 12 \/ nr c = 14 \/ nr c = 16 ->
  let m' := crypt_tail (b, 0%nat) m in
  let RK := blk (buf (enter c) b) in
  let n := Z.to_nat (nr c) in
  m_ctx m' = c /\
  get128 m' q =
    XOR128_blk (SL2_blk (XOR128_blk (rounds (n - 12) 12 RK s) (RK (n - 1)%nat)))
      (RK n).
Proof.
  intros H Hb Hn m' RK n. subst m' RK n. unfold crypt_tail.
  assert (Hnr : nr (m_ctx m) = nr c) by (destruct H as (_ & -> & _); reflexivity).
  destruct Hn as [Hn | [Hn | Hn]]; rewrite Hn;
    [ change (Z.to_nat 12) with 12%nat | change (Z.to_nat 14) with 14%nat
    | change (Z.to_nat 16) with 16%nat ]; cbn [Nat.sub rounds Nat.odd Nat.even negb].
  - rewrite ifs_true by (rewrite Hnr, Hn; reflexivity).
    pose proof (final_round b 44 48 11 12 m c _ eq_refl eq_refl H Hb) as HH.
    cbv zeta in HH. rewrite !seqs_app in *. exact HH.
  - rewrite ifs_false by (rewrite Hnr, Hn; reflexivity).
    rewrite ifs_true by (rewrite Hnr, Hn; reflexivity).
    apply (rounds2 b 44 48 11 _ _ _ eq_refl eq_refl eq_refl) in H; [|assumption].
    cbn [Nat.sub rounds Nat.odd Nat.even negb] in H.
    pose proof (final_round b 52 56 13 14 _ c _ eq_refl eq_refl H Hb) as HH.
    cbv zeta in HH. rewrite !seqs_app in *. exact HH.
  - rewrite ifs_false by (rewrite Hnr, Hn; reflexivity).
    rewrite ifs_false by (rewrite Hnr, Hn; reflexivity).
    apply (rounds2 b 44 48 11 _ _ _ eq_refl eq_refl eq_refl) in H; [|assumption].
    apply (rounds2 b 52 56 13 _ _ _ eq_refl eq_refl eq_refl) in H; [|assumption].
    cbn [Nat.sub rounds Nat.odd Nat.even negb] in H.
    pose proof (final_round b 60 64 15 16 _ c _ eq_refl eq_refl H Hb) as HH.
    cbv zeta in HH. rewrite !seqs_app in *. exact HH.
Qed.

Lemma crypt_mem_spec b c input :
  ctx_ok c -> nr c = 12 \/ nr c = 14 \/ nr c = 16 ->
  local (b, 0%nat) = false ->
  let m := crypt_mem b input (enter c) in
  let RK := blk (buf (enter c) b) in
  let n := Z.to_nat (nr c) in
  m_ctx m = c /\
  get128 m q =
    XOR128_blk (SL2_blk (XOR128_blk (rounds (n - 1) 1 RK (load_block input))
                           (RK (n - 1)%nat))) (RK n).
Proof.
  intros Hc Hn Hb m RK n. subst m. unfold crypt_mem.
  pose proof (load_holds c input Hc) as H.
  apply (rounds11 b) in H; [|assumption].
  destruct (crypt_tail_spec b c _ _ H Hb Hn) as [H1 H2].
  split; [exact H1|]. rewrite H2.
  fold RK. fold n. rewrite (rounds_app 11 (n - 12) 1).
  replace (11 + (n - 12))%nat with (n - 1)%nat; [reflexivity|].
  subst n. destruct Hn as [-> | [-> | ->]]; reflexivity.
Qed.

Lemma ariaEncryptBlock_mem_eq input m :
  ariaEncryptBlock_mem input m = crypt_mem Bek input m.
Proof.
  unfold ariaEncryptBlock_mem, crypt_mem, crypt_rounds, crypt_load, crypt_tail.
  cbv zeta.
  now rewrite !seqs_app.
Qed.

Lemma ariaDecryptBlock_mem_eq input m :
  ariaDecryptBlock_mem input m = crypt_mem Bdk input m.
Proof.
  unfold ariaDecryptBlock_mem, crypt_mem, crypt_rounds, crypt_load, crypt_tail.
  cbv zeta.
  now rewrite !seqs_app.
Qed.

(** The code's unrolled rounds are the specification's rounds. *)
Lemma encrypt_rounds c input output :
  ctx_ok c -> nr c = 12 \/ nr c = 14 \/ nr c = 16 ->
  ariaEncryptBlock c input output =
  (c, crypt_code (Z.to_nat (nr c)) (blk (ek c)) input output).
Proof.
  intros Hc Hn.
  destruct (crypt_mem_spec Bek c input Hc Hn eq_refl) as [H1 H2].
  unfold ariaEncryptBlock. cbv zeta.
  rewrite store_block_eq, ariaEncryptBlock_mem_eq, H1, H2. reflexivity.
Qed.

Lemma decrypt_rounds c input output :
  ctx_ok c -> nr c = 12 \/ nr c = 14 \/ nr c = 16 ->
  ariaDecryptBlock c input output =
  (c, crypt_code (Z.to_nat (nr c)) (blk (dk c)) input output).
Proof.
  intros Hc Hn.
  destruct (crypt_mem_spec Bdk c input Hc Hn eq_refl) as [H1 H2].
  unfold ariaDecryptBlock. cbv zeta.
  rewrite store_block_eq, ariaDecryptBlock_mem_eq, H1, H2. reflexivity.
Qed.

(** ** Words and their bytes *)

Local Abbreviation byte x k := (Z.land (shr32 x k) 255).
Local Abbreviation pk a b c d := (shl32 a 24 ||| shl32 b 16 ||| shl32 c 8 ||| d).

Lemma byte_ok_mask a : byte_ok a -> a = Z.land a (Z.ones 8).
Proof.
  unfold byte_ok. intros H. rewrite Z.land_ones by lia.
  rewrite Z.mod_small; [reflexivity | exact H].
Qed.

Lemma word_ok_mask a : word_ok a -> a = Z.land a (Z.ones 32).
Proof.
  unfold word_ok. intros H. rewrite Z.land_ones by lia.
  rewrite Z.mod_small; [reflexivity | exact H].
Qed.

Lemma mask_byte_ok a : byte_ok (Z.land a 255).
Proof.
  unfold byte_ok. change 255 with (Z.ones 8). rewrite Z.land_ones by lia.
  apply Z.mod_pos_bound. reflexivity.
Qed.

Lemma mask_word_ok a : word_ok (u32 a).
Proof.
  unfold word_ok, u32. change 0xFFFFFFFF with (Z.ones 32).
  rewrite Z.land_ones by lia. apply Z.mod_pos_bound. reflexivity.
Qed.

Lemma mask_of_bits n a :
  0 <= n -> (forall i, n <= i -> Z.testbit a i = false) -> 0 <= a ->
  0 <= a < 2 ^ n.
Proof.
  intros Hn H Ha. split; [exact Ha|].
  destruct (Z.eq_dec a 0) as [->|Hz]; [apply Z.pow_pos_nonneg; lia|].
  apply Z.log2_lt_pow2; [lia|].
  destruct (Z_lt_le_dec (Z.log2 a) n) as [Hl|Hl]; [exact Hl|].
  specialize (H (Z.log2 a) Hl). rewrite Z.bit_log2 in H by lia. discriminate.
Qed.

Lemma byte_ok_lxor a b : byte_ok a -> byte_ok b -> byte_ok (a ^^ b).
Proof.
  intros Ha Hb. apply (mask_of_bits 8); [lia| |].
  - intros i Hi. rewrite (byte_ok_mask a Ha), (byte_ok_mask b Hb).
    rewrite Z.lxor_spec, !Z.land_spec, Z.ones_spec_high by lia.
    now rewrite !andb_false_r.
  - apply Z.lxor_nonneg. unfold byte_ok in *. split; lia.
Qed.

Lemma word_ok_lxor a b : word_ok a -> word_ok b -> word_ok (a ^^ b).
Proof.
  intros Ha Hb. apply (mask_of_bits 32); [lia| |].
  - intros i Hi. rewrite (word_ok_mask a Ha), (word_ok_mask b Hb).
    rewrite Z.lxor_spec, !Z.land_spec, Z.ones_spec_high by lia.
    now rewrite !andb_false_r.
  - apply Z.lxor_nonneg. unfold word_ok in *. split; lia.
Qed.

Ltac masks :=
  unfold shl32, shr32, u32;
  change 255 with (Z.ones 8); change 0xFFFFFFFF with (Z.ones 32).

Section Bytes.
Variables a b c d : Z.
Hypothesis Ha : byte_ok a.
Hypothesis Hb : byte_ok b.
Hypothesis Hc : byte_ok c.
Hypothesis Hd : byte_ok d.

Lemma byte_pk_24 : byte (pk a b c d) 24 = a.
Proof.
  rewrite (byte_ok_mask a Ha), (byte_ok_mask b Hb), (byte_ok_mask c Hc),
    (byte_ok_mask d Hd).
  masks. Z.bitblast.
Qed.

Lemma byte_pk_16 : byte (pk a b c d) 16 = b.
Proof.
  rewrite (byte_ok_mask a Ha), (byte_ok_mask b Hb), (byte_ok_mask c Hc),
    (byte_ok_mask d Hd).
  masks. Z.bitblast.
Qed.

Lemma byte_pk_8 : byte (pk a b c d) 8 = c.
Proof.
  rewrite (byte_ok_mask a Ha), (byte_ok_mask b Hb), (byte_ok_mask c Hc),
    (byte_ok_mask d Hd).
  masks. Z.bitblast.
Qed.

Lemma byte_pk_0 : byte (pk a b c d) 0 = d.
Proof.
  rewrite (byte_ok_mask a Ha), (byte_ok_mask b Hb), (byte_ok_mask c Hc),
    (byte_ok_mask d Hd).
  masks. Z.bitblast.
Qed.

Lemma word_ok_pk : word_ok (pk a b c d).
Proof.
  apply (mask_of_bits 32); [lia| |].
  - intros i Hi.
    rewrite (byte_ok_mask d Hd). masks.
    rewrite !Z.lor_spec, !Z.land_spec, !Z.ones_spec_high by lia.
    now rewrite !andb_false_r.
  - assert (Hm : forall z, 0 <= Z.land z (Z.ones 32))
      by (intros z; apply Z.land_nonneg; right; apply Z.leb_le; reflexivity).
    unfold byte_ok in Hd. masks.
    rewrite !Z.lor_nonneg. auto with zarith.
Qed.
End Bytes.

Lemma pk_byte x : word_ok x -> pk (byte x 24) (byte x 16) (byte x 8) (byte x 0) = x.
Proof.
  intros H. rewrite (word_ok_mask x H) at 5. masks. Z.bitblast.
Qed.

Lemma byte_lxor x y k : byte (x ^^ y) k = byte x k ^^ byte y k.
Proof.
  unfold shr32. rewrite Z.shiftr_lxor. 
  apply Z.bits_inj'. intros n Hn.
  rewrite Z.lxor_spec, !Z.land_spec, Z.lxor_spec.
  destruct (Z.testbit 255 n); now rewrite ?andb_true_r, ?andb_false_r.
Qed.

Lemma pk_lxor a b c d a' b' c' d' :
  byte_ok a -> byte_ok b -> byte_ok c -> byte_ok d ->
  byte_ok a' -> byte_ok b' -> byte_ok c' -> byte_ok d' ->
  pk a b c d ^^ pk a' b' c' d' = pk (a ^^ a') (b ^^ b') (c ^^ c') (d ^^ d').
Proof.
  intros Ha Hb Hc Hd Ha' Hb' Hc' Hd'.
  rewrite (byte_ok_mask a Ha), (byte_ok_mask b Hb), (byte_ok_mask c Hc),
    (byte_ok_mask d Hd), (byte_ok_mask a' Ha'), (byte_ok_mask b' Hb'),
    (byte_ok_mask c' Hc'), (byte_ok_mask d' Hd').
  masks. Z.bitblast.
Qed.

Lemma pk_eq a b c d a' b' c' d' :
  a = a' -> b = b' -> c = c' -> d = d' -> pk a b c d = pk a' b' c' d'.
Proof. now intros -> -> -> ->. Qed.

(** Equations between exclusive-or combinations, bit by bit in the Boolean
    ring. *)
Ltac xor_solve :=
  apply Z.bits_inj'; intros ?n ?Hn; rewrite !Z.lxor_spec; ring.

Ltac byte_ok_tac :=
  repeat first [ apply mask_byte_ok | apply byte_ok_lxor | assumption ].

(** ** S-boxes *)

Lemma in_all_bytes x : byte_ok x -> In x all_bytes.
Proof.
  intros [H0 H1]. unfold all_bytes. rewrite <- (Z2Nat.id x H0).
  apply in_map, in_seq. lia.
Qed.

Lemma sbox_inverse x :
  byte_ok x ->
  at_ sb3 (at_ sb1 x) = x /\ at_ sb1 (at_ sb3 x) = x /\
  at_ sb4 (at_ sb2 x) = x /\ at_ sb2 (at_ sb4 x) = x.
Proof.
  intros H.
  assert (Hall : forallb (fun x =>
            (at_ sb3 (at_ sb1 x) =? x) && (at_ sb1 (at_ sb3 x) =? x) &&
            (at_ sb4 (at_ sb2 x) =? x) && (at_ sb2 (at_ sb4 x) =? x)) all_bytes = true)
    by (vm_compute; reflexivity).
  rewrite forallb_forall in Hall. specialize (Hall x (in_all_bytes x H)).
  rewrite !andb_true_iff, !Z.eqb_eq in Hall. tauto.
Qed.

Lemma table_byte_ok tbl i :
  forallb (fun x => (0 <=? x) && (x <? 256)) tbl = true -> byte_ok (at_ tbl i).
Proof.
  intros H. unfold at_. rewrite forallb_forall in H.
  destruct (nth_in_or_default (Z.to_nat i) tbl 0) as [Hin | ->].
  - specialize (H _ Hin). rewrite andb_true_iff, Z.leb_le, Z.ltb_lt in H. exact H.
  - split; lia.
Qed.

Lemma sb1_byte_ok i : byte_ok (at_ sb1 i).
Proof. apply table_byte_ok. vm_compute. reflexivity. Qed.
Lemma sb2_byte_ok i : byte_ok (at_ sb2 i).
Proof. apply table_byte_ok. vm_compute. reflexivity. Qed.
Lemma sb3_byte_ok i : byte_ok (at_ sb3 i).
Proof. apply table_byte_ok. vm_compute. reflexivity. Qed.
Lemma sb4_byte_ok i : byte_ok (at_ sb4 i).
Proof. apply table_byte_ok. vm_compute. reflexivity. Qed.

(** ** The block functions *)

Lemma block_eta (x : block) :
  x = (fst (fst (fst x)), snd (fst (fst x)), snd (fst x), snd x).
Proof. now destruct x as [[[? ?] ?] ?]. Qed.

Lemma XOR128_blk_eq x0 x1 x2 x3 y0 y1 y2 y3 :
  XOR128_blk (x0, x1, x2, x3) (y0, y1, y2, y3) =
  (x0 ^^ y0, x1 ^^ y1, x2 ^^ y2, x3 ^^ y3).
Proof. reflexivity. Qed.

Lemma XOR128_blk_cancel x y : XOR128_blk (XOR128_blk x y) y = x.
Proof.
  destruct x as [[[x0 x1] x2] x3], y as [[[y0 y1] y2] y3].
  rewrite !XOR128_blk_eq.
  now rewrite !Z.lxor_assoc, !Z.lxor_nilpotent, !Z.lxor_0_r.
Qed.

Lemma XOR128_blk_ok x y : block_ok x -> block_ok y -> block_ok (XOR128_blk x y).
Proof.
  destruct x as [[[x0 x1] x2] x3], y as [[[y0 y1] y2] y3].
  rewrite XOR128_blk_eq. unfold block_ok.
  intros (?&?&?&?) (?&?&?&?). auto using word_ok_lxor.
Qed.

Ltac block_ok_pk :=
  unfold block_ok; repeat split; apply word_ok_pk;
  repeat first [ apply sb1_byte_ok | apply sb2_byte_ok | apply sb3_byte_ok
               | apply sb4_byte_ok | apply mask_byte_ok | apply byte_ok_lxor ].

Lemma SL1_blk_ok x : block_ok (SL1_blk x).
Proof. destruct x as [[[x0 x1] x2] x3]. run_blk. block_ok_pk. Qed.

Lemma SL2_blk_ok x : block_ok (SL2_blk x).
Proof. destruct x as [[[x0 x1] x2] x3]. run_blk. block_ok_pk. Qed.

Lemma A_blk_ok x : block_ok (A_blk x).
Proof. destruct x as [[[x0 x1] x2] x3]. run_blk. block_ok_pk. Qed.

Lemma OF_blk_ok x k : block_ok (OF_blk x k).
Proof. rewrite OF_blk_eq. apply A_blk_ok. Qed.

Lemma EF_blk_ok x k : block_ok (EF_blk x k).
Proof. rewrite EF_blk_eq. apply A_blk_ok. Qed.

(** The four bytes of a word that was built from four bytes. *)
Lemma bytes_of_pk y a b c d :
  y = pk a b c d -> byte_ok a -> byte_ok b -> byte_ok c -> byte_ok d ->
  byte y 24 = a /\ byte y 16 = b /\ byte y 8 = c /\ byte y 0 = d.
Proof.
  intros -> Ha Hb Hc Hd.
  now rewrite byte_pk_24, byte_pk_16, byte_pk_8, byte_pk_0.
Qed.

Ltac sbox_ok :=
  repeat first [ apply sb1_byte_ok | apply sb2_byte_ok | apply sb3_byte_ok
               | apply sb4_byte_ok | apply mask_byte_ok | apply byte_ok_lxor ].

(** Name the words of [f x] and record their bytes. *)
Lemma block_inj (a b c d a' b' c' d' : Z) :
  (a, b, c, d) = (a', b', c', d') -> a' = a /\ b' = b /\ c' = c /\ d' = d.
Proof. intros H. injection H as -> -> -> ->. auto. Qed.

Ltac bytes_of f x0 x1 x2 x3 :=
  let Hy := fresh "Hy" in
  let Ha := fresh "Ha" in
  let Hb := fresh "Hb" in
  let Hc := fresh "Hc" in
  let Hd := fresh "Hd" in
  destruct (f (x0, x1, x2, x3)) as [[[?y0 ?y1] ?y2] ?y3] eqn:Hy;
  run_blk_in Hy; apply block_inj in Hy; destruct Hy as (Ha & Hb & Hc & Hd);
  apply bytes_of_pk in Ha; [|sbox_ok..];
  apply bytes_of_pk in Hb; [|sbox_ok..];
  apply bytes_of_pk in Hc; [|sbox_ok..];
  apply bytes_of_pk in Hd; [|sbox_ok..];
  destruct Ha as (?&?&?&?), Hb as (?&?&?&?), Hc as (?&?&?&?), Hd as (?&?&?&?).

Ltac rewrite_bytes :=
  repeat match goal with
         | H : byte _ _ = _ |- _ => rewrite H; clear H
         end.

Lemma block_eq (a b c d a' b' c' d' : Z) :
  a = a' -> b = b' -> c = c' -> d = d' -> (a, b, c, d) = (a', b', c', d').
Proof. now intros -> -> -> ->. Qed.

Ltac word_by_bytes :=
  etransitivity; [ | apply pk_byte; assumption ]; apply pk_eq.

Lemma SL1_SL2 x : block_ok x -> SL1_blk (SL2_blk x) = x.
Proof.
  destruct x as [[[x0 x1] x2] x3]. intros (H0 & H1 & H2 & H3).
  bytes_of SL2_blk x0 x1 x2 x3. run_blk. rewrite_bytes.
  apply block_eq.
  all: word_by_bytes.
  all: apply sbox_inverse; apply mask_byte_ok.
Qed.

Lemma SL2_SL1 x : block_ok x -> SL2_blk (SL1_blk x) = x.
Proof.
  destruct x as [[[x0 x1] x2] x3]. intros (H0 & H1 & H2 & H3).
  bytes_of SL1_blk x0 x1 x2 x3. run_blk. rewrite_bytes.
  apply block_eq.
  all: word_by_bytes.
  all: apply sbox_inverse; apply mask_byte_ok.
Qed.

(** The diffusion layer is its own inverse. *)
Lemma A_involutive x : block_ok x -> A_blk (A_blk x) = x.
Proof.
  destruct x as [[[x0 x1] x2] x3]. intros (H0 & H1 & H2 & H3).
  bytes_of A_blk x0 x1 x2 x3. run_blk. rewrite_bytes.
  apply block_eq.
  all: word_by_bytes.
  all: xor_solve.
Qed.

(** The diffusion layer is linear over exclusive or. *)
Lemma A_linear x y : A_blk (XOR128_blk x y) = XOR128_blk (A_blk x) (A_blk y).
Proof.
  destruct x as [[[x0 x1] x2] x3], y as [[[y0 y1] y2] y3].
  run_blk. rewrite !byte_lxor.
  rewrite !pk_lxor by sbox_ok.
  apply block_eq.
  all: apply pk_eq; xor_solve.
Qed.

(** ** Blocks of an array *)

Lemma sepb_blk b b' i j :
  b' <> b \/ i <> j -> sepb (b', (4 * j)%nat) (b, (4 * i)%nat) = true.
Proof.
  intros H. unfold sepb. cbn [fst snd].
  destruct (base_eqb b' b) eqn:E; [|reflexivity].
  apply base_eqb_eq in E. destruct H as [H|H]; [contradiction|].
  cbn [negb orb]. apply orb_true_iff.
  destruct (Nat.lt_ge_cases j i); [left|right]; apply Nat.leb_le; lia.
Qed.

Lemma wr_ok_blk b i :
  b <> Bc -> (4 * i + 4 <= size b)%nat -> wr_ok (b, (4 * i)%nat) = true.
Proof.
  intros Hb Hi. unfold wr_ok. cbn [fst snd].
  apply andb_true_iff; split; [|now apply Nat.leb_le].
  destruct b; try reflexivity. contradiction.
Qed.

Lemma blk_put_same b i x m :
  mem_ok m -> b <> Bc -> (4 * i + 4 <= size b)%nat ->
  blk (buf (put128 (b, (4 * i)%nat) x m) b) i = x.
Proof.
  intros Hm Hb Hi. rewrite <- get128_blk.
  apply get_put_same; [assumption | now apply wr_ok_blk].
Qed.

Lemma blk_put_other b b' i j x m :
  b' <> b \/ i <> j ->
  blk (buf (put128 (b, (4 * i)%nat) x m) b') j = blk (buf m b') j.
Proof.
  intros H. rewrite <- !get128_blk. apply get_put_sep. now apply sepb_blk.
Qed.

Lemma buf_put_other b a x m : b <> fst a -> buf (put128 a x m) b = buf m b.
Proof.
  intros H. destruct x as [[[x0 x1] x2] x3]. unfold put128, wr.
  rewrite !buf_set_buf_other; auto.
Qed.

(** ** The key words *)

Lemma LOAD32BE_zero l o : (length l <= o)%nat -> LOAD32BE l o = 0.
Proof.
  intros H. unfold LOAD32BE. now rewrite !nth_overflow by lia.
Qed.

Lemma nth_skipn_add n (l : list Z) i : nth i (skipn n l) 0 = nth (n + i) l 0.
Proof.
  revert l; induction n as [|n IH]; intros l; [reflexivity|].
  destruct l as [|x l]; [now destruct i|]. apply IH.
Qed.

Lemma LOAD32BE_skipn n l o : LOAD32BE (skipn n l) o = LOAD32BE l (n + o).
Proof.
  unfold LOAD32BE. rewrite !nth_skipn_add. now rewrite !Nat.add_assoc.
Qed.

(** The loop that loads the key, by its invariant: after [k] iterations
    the words [0..k-1] of [w] are set. *)
Lemma load_loop key kl k m :
  mem_ok m -> (k <= 16)%nat ->
  let m' := for_range 0 k (fun i =>
              ifs (fun _ => Z.of_nat i <? kl)
                (assign w i (fun _ => LOAD32BE key (i * 4)))
                (assign w i (fun _ => 0))) m in
  mem_ok m' /\ m_ctx m' = m_ctx m /\
  forall j, (j < k)%nat ->
    rd m' w j = if Z.of_nat j <? kl then LOAD32BE key (j * 4) else 0.
Proof.
  intros Hm. induction k as [|k IH]; intros Hk.
  - cbn. repeat split; auto. intros j Hj; lia.
  - destruct IH as (IH1 & IH2 & IH3); [lia|].
    unfold for_range in *. rewrite seq_S, fold_left_app. cbn [fold_left Nat.add].
    set (m1 := fold_left _ (seq 0 k) m) in *.
    assert (Hw : forall v, rd (wr w k v m1) w k = v).
    { intros v. apply rd_wr_same; [assumption | discriminate | cbn; lia]. }
    assert (Ho : forall v j, (j < k)%nat -> rd (wr w k v m1) w j = rd m1 w j).
    { intros v j Hj. apply rd_wr_other. right. cbn. lia. }
    unfold ifs, assign. cbv zeta.
    destruct (Z.of_nat k <? kl) eqn:E.
    + split; [now apply mem_ok_wr|]. split; [now rewrite ctx_wr_local|].
      intros j Hj. destruct (Nat.eq_dec j k) as [->|Hne].
      * now rewrite Hw, E.
      * rewrite Ho by lia. apply IH3. lia.
    + split; [now apply mem_ok_wr|]. split; [now rewrite ctx_wr_local|].
      intros j Hj. destruct (Nat.eq_dec j k) as [->|Hne].
      * now rewrite Hw, E.
      * rewrite Ho by lia. apply IH3. lia.
Qed.

Lemma get128_w m o :
  get128 m (w +> o) = (rd m w o, rd m w (o + 1), rd m w (o + 2), rd m w (o + 3)).
Proof. unfold get128, rd, padd. cbn [fst snd Nat.add]. now rewrite Nat.add_0_r. Qed.

(** After the loop, [w] holds [KL], [KR] and eight zero words. *)
Lemma load_key key keyLen m :
  mem_ok m -> keyLen = 16 \/ keyLen = 24 \/ keyLen = 32 ->
  Z.of_nat (length key) = keyLen ->
  let m' := for_range 0 16 (fun i =>
              ifs (fun _ => Z.of_nat i <? keyLen / 4)
                (assign w i (fun _ => LOAD32BE key (i * 4)))
                (assign w i (fun _ => 0))) m in
  mem_ok m' /\ m_ctx m' = m_ctx m /\
  get128 m' (w +> 0) = KL key /\ get128 m' (w +> 4) = KR key.
Proof.
  intros Hm Hk Hl m'.
  destruct (load_loop key (keyLen / 4) 16 m Hm (Nat.le_refl _)) as (H1 & H2 & H3).
  fold m' in H1, H2, H3.
  split; [exact H1|]. split; [exact H2|].
  rewrite !get128_w. cbn [Nat.add].
  rewrite !H3 by lia. unfold KL, KR, load_block. rewrite !LOAD32BE_skipn.
  cbn [Nat.add Nat.mul].
  destruct Hk as [-> | [-> | ->]]; cbn [Z.of_nat Z.ltb Z.compare Z.div Z.div_eucl];
    (split; [reflexivity|]);
    repeat match goal with
           | |- context [LOAD32BE key ?o] =>
               rewrite (LOAD32BE_zero key o) by lia
           end; reflexivity.
Qed.

(** Run the innermost statement, the one whose memory is a variable or a
    chain of [put128]. *)
Ltac evaluated m :=
  lazymatch m with
  | put128 _ _ _ => idtac
  | _ => is_var m
  end.

Ltac sched_side :=
  lazymatch goal with
  | |- mem_ok _ => mem_ok_tac
  | |- _ = true => reflexivity
  end.

Ltac simp_get_in E :=
  repeat first [ rewrite get_put_same in E by sched_side
               | rewrite get_put_sep in E by reflexivity ].

Ltac simp_get :=
  repeat first [ rewrite get_put_same by sched_side
               | rewrite get_put_sep by reflexivity ].

Ltac step_in E :=
  match type of E with
  | context [MOV128 ?b ?a ?m] =>
      evaluated m; rewrite (MOV128_sem b a m) in E by sched_side
  | context [XOR128 ?b ?a ?m] =>
      evaluated m; rewrite (XOR128_sem b a m) in E by sched_side
  | context [ROL128 ?b ?a ?n ?m] =>
      evaluated m;
      rewrite (ROL128_sem b a n m) in E by (sched_side || (cbv; tauto))
  | context [A ?b ?a ?m] =>
      evaluated m; rewrite (A_sem b a m) in E by sched_side
  | context [OF ?d ?rk ?m] =>
      evaluated m; rewrite (OF_sem d rk m) in E by sched_side; cbv zeta in E;
      rewrite <- OF_blk_eq in E
  | context [EF ?d ?rk ?m] =>
      evaluated m; rewrite (EF_sem d rk m) in E by sched_side; cbv zeta in E;
      rewrite <- EF_blk_eq in E
  end.

(** The first part of [ariaInit] leaves [W0], [W1], [W2], [W3] in [w]. *)
Lemma words_spec key keyLen o1 o2 o3 m m' :
  mem_ok m -> keyLen = 16 \/ keyLen = 24 \/ keyLen = 32 ->
  Z.of_nat (length key) = keyLen ->
  m' = ariaInit_words key keyLen (ck o1) (ck o2) (ck o3) m ->
  let CK1 := get128 m (ck o1) in
  let CK2 := get128 m (ck o2) in
  let CK3 := get128 m (ck o3) in
  let W0 := KL key in
  let W1 := XOR128_blk (OF_blk W0 CK1) (KR key) in
  let W2 := XOR128_blk (EF_blk W1 CK2) W0 in
  let W3 := XOR128_blk (OF_blk W2 CK3) W1 in
  mem_ok m' /\ m_ctx m' = m_ctx m /\
  get128 m' (w +> 0) = W0 /\ get128 m' (w +> 4) = W1 /\
  get128 m' (w +> 8) = W2 /\ get128 m' (w +> 12) = W3.
Proof.
  intros Hm Hk Hl E CK1 CK2 CK3 W0 W1 W2 W3.
  unfold ariaInit_words in E. cbv zeta in E. rewrite !seqs_app in E.
  destruct (load_key key keyLen m Hm Hk Hl) as (Hm1 & Hc1 & F0 & F1).
  cbv zeta in Hm1, Hc1, F0, F1.
  set (m1 := for_range 0 16 _ m) in *. clearbody m1.
  assert (Hck : forall o, get128 m1 (ck o) = get128 m (ck o)) by reflexivity.
  assert (Hsep : forall o j, sepb (ck o) (w +> j) = true) by reflexivity.
  repeat (step_in E; simp_get_in E; rewrite ?F0, ?F1, ?Hck in E).
  fold CK1 CK2 CK3 W0 in E. fold W1 in E. fold W2 in E. fold W3 in E.
  subst m'.
  split; [mem_ok_tac|]. split; [now rewrite !ctx_put_local by reflexivity|].
  simp_get. auto.
Qed.

Lemma dk_put a x m : fst a <> Bdk -> dk (m_ctx (put128 a x m)) = dk (m_ctx m).
Proof. intros H. apply (buf_put_other Bdk). congruence. Qed.

Lemma ek_put a x m : fst a <> Bek -> ek (m_ctx (put128 a x m)) = ek (m_ctx m).
Proof. intros H. apply (buf_put_other Bek). congruence. Qed.

Ltac norm_ptr_in E := cbn [padd w fst snd Nat.add Nat.mul Nat.sub] in E.

(** Case analysis on a number below a bound. *)
Ltac cases r n tac :=
  lazymatch n with
  | O => exfalso; lia
  | S ?n' => destruct r as [|r]; [ first [exfalso; lia | tac] | cases r n' tac ]
  end.

(** The second part of [ariaInit]: the seventeen encryption round keys. *)
Lemma ek_stage m m' :
  mem_ok m -> m' = ariaInit_ek m ->
  mem_ok m' /\ nr (m_ctx m') = nr (m_ctx m) /\
  dk (m_ctx m') = dk (m_ctx m) /\ buf m' Bw = buf m Bw /\
  forall r, (1 <= r <= 17)%nat ->
    blk (buf m' Bek) (r - 1) = ek_code (blk (buf m Bw)) r.
Proof.
  intros Hm E. unfold ariaInit_ek in E. cbv zeta in E. rewrite !seqs_app in E.
  norm_ptr_in E.
  repeat (step_in E; simp_get_in E).
  subst m'.
  split; [mem_ok_tac|]. split; [now rewrite !nr_put|].
  split; [now rewrite !dk_put by discriminate|].
  split; [now rewrite !buf_put_other by discriminate|].
  intros r Hr.
  cases r 18%nat
    ltac:(cbn [Nat.sub]; rewrite <- !get128_blk; cbn [Nat.mul Nat.add];
          simp_get; reflexivity).
Qed.

(** The third part of [ariaInit]: the decryption round keys. *)
Lemma dk_stage m m' n :
  mem_ok m -> Z.to_nat (nr (m_ctx m)) = n ->
  n = 12%nat \/ n = 14%nat \/ n = 16%nat ->
  m' = ariaInit_dk m ->
  mem_ok m' /\ nr (m_ctx m') = nr (m_ctx m) /\
  ek (m_ctx m') = ek (m_ctx m) /\ buf m' Bw = buf m Bw /\
  blk (buf m' Bdk) 0 = blk (buf m Bek) n /\
  (forall i, (1 <= i < n)%nat ->
     blk (buf m' Bdk) i = A_blk (blk (buf m Bek) (n - i))) /\
  blk (buf m' Bdk) n = blk (buf m Bek) 0.
Proof.
  intros Hm Hn Hc E. unfold ariaInit_dk in E. cbv zeta in E. rewrite Hn in E.
  destruct Hc as [-> | [-> | ->]];
    cbn [for_range seq fold_left Nat.max Nat.sub] in E; norm_ptr_in E;
    repeat (step_in E; simp_get_in E);
    subst m';
    (split; [mem_ok_tac|]); (split; [now rewrite !nr_put|]);
    (split; [now rewrite !ek_put by discriminate|]);
    (split; [now rewrite !buf_put_other by discriminate|]);
    rewrite <- !get128_blk; cbn [Nat.mul Nat.add];
    (split; [simp_get; reflexivity|]);
    (split; [|simp_get; reflexivity]);
    intros i Hi.
  - cases i 12%nat
      ltac:(cbn [Nat.sub]; rewrite <- !get128_blk; cbn [Nat.mul Nat.add];
            simp_get; reflexivity).
  - cases i 14%nat
      ltac:(cbn [Nat.sub]; rewrite <- !get128_blk; cbn [Nat.mul Nat.add];
            simp_get; reflexivity).
  - cases i 16%nat
      ltac:(cbn [Nat.sub]; rewrite <- !get128_blk; cbn [Nat.mul Nat.add];
            simp_get; reflexivity).
Qed.

(** ** What a successful [ariaInit] leaves behind *)

Lemma get128_ck_blk m k : get128 m (ck (4 * k)) = blk c k.
Proof. unfold ck. now rewrite get128_blk. Qed.

Lemma offsets_cases keyLen o1 o2 o3 :
  keyLen = 16 \/ keyLen = 24 \/ keyLen = 32 ->
  (o1, o2, o3) = ck_offsets keyLen ->
  exists k1 k2 k3, (o1 = 4 * k1 /\ o2 = 4 * k2 /\ o3 = 4 * k3 /\
                    o1 / 4 = k1 /\ o2 / 4 = k2 /\ o3 / 4 = k3)%nat.
Proof.
  intros [-> | [-> | ->]] H; injection H as -> -> ->.
  - exists 0%nat, 1%nat, 2%nat. repeat split.
  - exists 1%nat, 2%nat, 0%nat. repeat split.
  - exists 2%nat, 0%nat, 1%nat. repeat split.
Qed.

(** The words of the first part are those of the specification. *)
Lemma words_W key keyLen o1 o2 o3 m m' :
  mem_ok m -> keyLen = 16 \/ keyLen = 24 \/ keyLen = 32 ->
  Z.of_nat (length key) = keyLen ->
  (o1, o2, o3) = ck_offsets keyLen ->
  m' = ariaInit_words key keyLen (ck o1) (ck o2) (ck o3) m ->
  mem_ok m' /\ m_ctx m' = m_ctx m /\
  forall k, (k < 4)%nat -> blk (buf m' Bw) k = W_code key keyLen k.
Proof.
  intros Hm Hk Hl Ho E.
  destruct (words_spec key keyLen o1 o2 o3 m m' Hm Hk Hl E)
    as (Hm1 & Hc1 & G0 & G1 & G2 & G3).
  split; [exact Hm1|]. split; [exact Hc1|].
  destruct (offsets_cases keyLen o1 o2 o3 Hk Ho)
    as (k1 & k2 & k3 & E1 & E2 & E3 & D1 & D2 & D3).
  unfold W_code. rewrite <- Ho. cbv beta iota zeta. rewrite D1, D2, D3.
  clear Ho D1 D2 D3. subst o1 o2 o3.
  rewrite !get128_ck_blk in G1. rewrite !get128_ck_blk in G2.
  rewrite !get128_ck_blk in G3.
  change (w +> 0) with (Bw, (4 * 0)%nat) in G0.
  change (w +> 4) with (Bw, (4 * 1)%nat) in G1.
  change (w +> 8) with (Bw, (4 * 2)%nat) in G2.
  change (w +> 12) with (Bw, (4 * 3)%nat) in G3.
  rewrite get128_blk in G0, G1, G2, G3.
  intros k Hk4. destruct k as [|[|[|[|k]]]].
  - exact G0.
  - exact G1.
  - exact G2.
  - exact G3.
  - exfalso. clear - Hk4. lia.
Qed.

Lemma schedule_spec c0 key keyLen n o1 o2 o3 :
  ctx_ok c0 -> keyLen = 16 \/ keyLen = 24 \/ keyLen = 32 ->
  Z.of_nat (length key) = keyLen ->
  n = nr_of keyLen -> (o1, o2, o3) = ck_offsets keyLen ->
  scheduled keyLen key
    (ariaInit_schedule key keyLen (ck o1) (ck o2) (ck o3) (set_nr n (enter c0))).
Proof.
  intros Hc Hk Hl Hn Ho.
  unfold ariaInit_schedule. rewrite !seqs_app.
  assert (Hm0 : mem_ok (set_nr n (enter c0))) by mem_ok_tac.
  assert (Hn0 : nr (m_ctx (set_nr n (enter c0))) = n) by reflexivity.
  set (m0 := set_nr n (enter c0)) in *. clearbody m0.
  destruct (words_W key keyLen o1 o2 o3 m0 _ Hm0 Hk Hl Ho eq_refl)
    as (Hm1 & Hc1 & HW).
  set (m1 := ariaInit_words _ _ _ _ _ m0) in *. clearbody m1.
  destruct (ek_stage m1 _ Hm1 eq_refl) as (Hm2 & Hn2 & Hd2 & Hw2 & He2).
  set (m2 := ariaInit_ek m1) in *. clearbody m2.
  assert (Hn2' : Z.to_nat (nr (m_ctx m2)) = Z.to_nat (nr_of keyLen))
    by (now rewrite Hn2, Hc1, Hn0, Hn).
  assert (Hcases : Z.to_nat (nr_of keyLen) = 12%nat \/
                   Z.to_nat (nr_of keyLen) = 14%nat \/
                   Z.to_nat (nr_of keyLen) = 16%nat)
    by (destruct Hk as [-> | [-> | ->]]; auto).
  destruct (dk_stage m2 _ _ Hm2 Hn2' Hcases eq_refl)
    as (Hm3 & Hn3 & He3 & Hw3 & D0 & D1 & D2).
  set (m3 := ariaInit_dk m2) in *. clearbody m3.
  assert (Bdk3 : buf m3 Bdk = dk (m_ctx m3)) by reflexivity.
  assert (Bek2 : buf m2 Bek = ek (m_ctx m3)) by (rewrite He3; reflexivity).
  rewrite Bdk3, Bek2 in D0, D2. rewrite Bek2 in He2.
  split.
  - exact Hm3.
  - now rewrite Hn3, Hn2, Hc1, Hn0.
  - intros k Hk4. rewrite Hw3, Hw2. now apply HW.
  - intros r Hr. rewrite (He2 r Hr).
    unfold ek_code, W_src, W_part.
    rewrite !HW by (apply Nat.mod_upper_bound; lia). reflexivity.
  - exact D0.
  - intros i Hi. rewrite <- Bdk3, <- Bek2. now apply D1.
  - exact D2.
Qed.

Lemma ariaInit_mem_spec c0 key keyLen :
  ctx_ok c0 -> keyLen = 16 \/ keyLen = 24 \/ keyLen = 32 ->
  Z.of_nat (length key) = keyLen ->
  fst (ariaInit_mem c0 key keyLen) = NO_ERROR /\
  scheduled keyLen key (snd (ariaInit_mem c0 key keyLen)).
Proof.
  intros Hc Hk Hl. unfold ariaInit_mem. cbv zeta.
  destruct Hk as [-> | [-> | ->]]; cbn [Z.eqb Pos.eqb fst snd];
    (split; [reflexivity|]).
  - apply (schedule_spec c0 key 16 12 0 4 8); auto.
  - apply (schedule_spec c0 key 24 14 4 8 0); auto.
  - apply (schedule_spec c0 key 32 16 8 0 4); auto.
Qed.

(** ** The block transform undone by the mirrored key table *)

Lemma round_eq i RK s :
  (if Nat.odd i then OF_blk s (RK (i - 1)%nat) else EF_blk s (RK (i - 1)%nat)) =
  A_blk (SL_blk (Nat.odd i) (XOR128_blk s (RK (i - 1)%nat))).
Proof.
  unfold SL_blk. destruct (Nat.odd i); [apply OF_blk_eq | apply EF_blk_eq].
Qed.

Lemma rounds_snoc k RK s :
  rounds (S k) 1 RK s =
  A_blk (SL_blk (Nat.odd (S k)) (XOR128_blk (rounds k 1 RK s) (RK k))).
Proof.
  rewrite <- (Nat.add_1_r k) at 1. rewrite <- (rounds_app k 1 1).
  cbn [rounds]. rewrite round_eq. rewrite Nat.add_1_r.
  now rewrite Nat.sub_1_r.
Qed.

Lemma SL_blk_ok b x : block_ok (SL_blk b x).
Proof. destruct b; [apply SL1_blk_ok | apply SL2_blk_ok]. Qed.

Lemma SL_blk_inv b x : block_ok x -> SL_blk (negb b) (SL_blk b x) = x.
Proof. destruct b; [apply SL2_SL1 | apply SL1_SL2]. Qed.

Lemma rounds_ok k RK s : block_ok s -> block_ok (rounds k 1 RK s).
Proof.
  destruct k as [|k]; [trivial|]. intros _. rewrite rounds_snoc. apply A_blk_ok.
Qed.

Section Mirror.
Variables (n : nat) (RK RK' : nat -> block) (s : block).
Hypothesis Hn : Nat.even n = true.
Hypothesis Hn2 : (2 <= n)%nat.
Hypothesis HRK : forall i, (i <= n)%nat -> block_ok (RK i).
Hypothesis Hs : block_ok s.
Hypothesis HM : mirrored n RK RK'.

Let ct := crypt_blk n RK s.

(** After [j] rounds with the mirrored keys, the state is the diffusion
    layer of what entered the substitution layer of round [n - j + 1]. *)
Lemma unwind j :
  (1 <= j <= n - 1)%nat ->
  rounds j 1 RK' ct =
  A_blk (XOR128_blk (rounds (n - j) 1 RK s) (RK (n - j)%nat)).
Proof.
  destruct HM as (H0 & Hl & Hi).
  induction j as [|j IH]; [lia|]. intros Hj.
  rewrite rounds_snoc.
  destruct (Nat.eq_dec j 0) as [->|Hj0].
  - cbn [rounds Nat.odd Nat.even negb SL_blk]. rewrite H0.
    unfold ct, crypt_blk. rewrite XOR128_blk_cancel.
    rewrite SL1_SL2; [now rewrite Nat.sub_1_r, <- Nat.sub_1_r|].
    apply XOR128_blk_ok; [apply rounds_ok; assumption | apply HRK; lia].
  - rewrite IH by lia. rewrite (Hi j) by lia.
    rewrite A_linear, XOR128_blk_cancel.
    replace (n - j)%nat with (S (n - S j)) at 1 by lia.
    rewrite rounds_snoc.
    rewrite A_involutive by apply SL_blk_ok.
    replace (Nat.odd (S j)) with (negb (Nat.odd (S (n - S j)))).
    + rewrite SL_blk_inv; [reflexivity|].
      apply XOR128_blk_ok; [apply rounds_ok; assumption | apply HRK; lia].
    + replace (S (n - S j)) with (n - j)%nat by lia.
      rewrite Nat.odd_sub by lia. rewrite <- (Nat.negb_even n), Hn.
      rewrite Nat.odd_succ, <- Nat.negb_odd.
      now destruct (Nat.odd j).
Qed.

Lemma crypt_blk_mirror : crypt_blk n RK' ct = s.
Proof.
  unfold crypt_blk at 1. rewrite unwind by lia.
  destruct HM as (H0 & Hl & Hi).
  rewrite (Hi (n - 1)%nat) by lia. rewrite Hl.
  replace (n - (n - 1))%nat with 1%nat by lia.
  rewrite A_linear, XOR128_blk_cancel.
  change (rounds 1 1 RK s) with
    (if Nat.odd 1 then OF_blk s (RK (1 - 1)%nat) else EF_blk s (RK (1 - 1)%nat)).
  rewrite round_eq. cbn [Nat.odd Nat.even negb SL_blk Nat.sub].
  rewrite A_involutive by apply SL1_blk_ok.
  rewrite SL2_SL1 by (apply XOR128_blk_ok; [assumption | apply HRK; lia]).
  apply XOR128_blk_cancel.
Qed.
End Mirror.

Lemma mirrored_sym n RK RK' :
  (forall i, (i <= n)%nat -> block_ok (RK i)) ->
  mirrored n RK RK' -> mirrored n RK' RK.
Proof.
  intros Hok (H0 & Hl & Hi). split; [|split]; auto.
  intros i Hr. rewrite (Hi (n - i)%nat) by lia.
  replace (n - (n - i))%nat with i by lia.
  symmetry. apply A_involutive. apply Hok. lia.
Qed.

Lemma mirrored_ok n RK RK' :
  (forall i, (i <= n)%nat -> block_ok (RK i)) ->
  mirrored n RK RK' -> forall i, (i <= n)%nat -> block_ok (RK' i).
Proof.
  intros Hok (H0 & Hl & Hi) i Hr.
  destruct (Nat.eq_dec i 0) as [->|]; [rewrite H0; apply Hok; lia|].
  destruct (Nat.eq_dec i n) as [->|]; [rewrite Hl; apply Hok; lia|].
  rewrite Hi by lia. apply A_blk_ok.
Qed.

(** ** Blocks and their sixteen bytes *)

Lemma shr32_0 x : shr32 x 0 = x.
Proof. apply Z.shiftr_0_r. Qed.

Lemma low_byte_pk a b c d :
  byte_ok a -> byte_ok b -> byte_ok c -> byte_ok d ->
  Z.land (pk a b c d) 255 = d.
Proof.
  intros. rewrite <- (shr32_0 (pk a b c d)). now apply byte_pk_0.
Qed.

Lemma pk_low_byte x :
  word_ok x -> pk (byte x 24) (byte x 16) (byte x 8) (Z.land x 255) = x.
Proof.
  intros H. rewrite <- (shr32_0 x) at 4. now apply pk_byte.
Qed.

Lemma store_bytes_eq x0 x1 x2 x3 output :
  length output = 16%nat ->
  store_bytes (x0, x1, x2, x3) output =
  [byte x0 24; byte x0 16; byte x0 8; Z.land x0 255;
   byte x1 24; byte x1 16; byte x1 8; Z.land x1 255;
   byte x2 24; byte x2 16; byte x2 8; Z.land x2 255;
   byte x3 24; byte x3 16; byte x3 8; Z.land x3 255].
Proof.
  intros H.
  do 16 (destruct output as [|? output]; [discriminate|]).
  destruct output; [reflexivity | discriminate].
Qed.

Lemma load_store x output :
  block_ok x -> length output = 16%nat ->
  load_block (store_bytes x output) = x.
Proof.
  destruct x as [[[x0 x1] x2] x3]. intros (H0 & H1 & H2 & H3) Hl.
  rewrite store_bytes_eq by assumption.
  unfold load_block, LOAD32BE. cbn [nth Nat.add].
  now rewrite !pk_low_byte by assumption.
Qed.

Lemma store_load P output :
  bytes_ok P -> length P = 16%nat -> length output = 16%nat ->
  store_bytes (load_block P) output = P.
Proof.
  intros HP Hl Ho.
  do 16 (destruct P as [|? P]; [discriminate|]).
  destruct P; [|discriminate].
  unfold load_block, LOAD32BE. cbn [nth Nat.add].
  rewrite store_bytes_eq by assumption.
  unfold bytes_ok in HP.
  repeat match goal with
         | H : Forall _ (_ :: _) |- _ => apply Forall_cons_iff in H; destruct H
         end.
  now rewrite !byte_pk_24, !byte_pk_16, !byte_pk_8, !low_byte_pk by assumption.
Qed.

Lemma load_block_ok P : bytes_ok P -> block_ok (load_block P).
Proof.
  intros HP.
  assert (Hn : forall i, byte_ok (nth i P 0)).
  { intros i. destruct (nth_in_or_default i P 0) as [Hin | ->].
    - unfold bytes_ok in HP. rewrite Forall_forall in HP. now apply HP.
    - split; lia. }
  unfold load_block, LOAD32BE, block_ok.
  repeat split; apply word_ok_pk; apply Hn.
Qed.

Lemma bytes_ok_skipn n P : bytes_ok P -> bytes_ok (skipn n P).
Proof.
  unfold bytes_ok. revert P. induction n as [|n IH]; intros P H; [exact H|].
  destruct P as [|x P]; [constructor|].
  apply IH. now apply Forall_cons_iff in H.
Qed.

(** ** Rotation *)

Lemma word_ok_lor a b : word_ok a -> word_ok b -> word_ok (a ||| b).
Proof.
  intros Ha Hb. apply (mask_of_bits 32); [lia| |].
  - intros i Hi. rewrite (word_ok_mask a Ha), (word_ok_mask b Hb).
    rewrite Z.lor_spec, !Z.land_spec, Z.ones_spec_high by lia.
    now rewrite !andb_false_r.
  - apply Z.lor_nonneg. unfold word_ok in *. split; lia.
Qed.

Lemma word_ok_shr a k : word_ok a -> 0 <= k -> word_ok (shr32 a k).
Proof.
  unfold word_ok, shr32. intros Ha Hk. rewrite Z.shiftr_div_pow2 by assumption.
  assert (0 < 2 ^ k) by (apply Z.pow_pos_nonneg; lia).
  split; [apply Z.div_pos; lia|].
  apply Z.le_lt_trans with a; [|lia].
  apply Z.div_le_upper_bound; [lia|]. nia.
Qed.

Lemma ROL128_blk_ok n x :
  n = 109%nat \/ n = 97%nat \/ n = 61%nat \/ n = 31%nat \/ n = 19%nat ->
  block_ok x -> block_ok (ROL128_blk n x).
Proof.
  destruct x as [[[x0 x1] x2] x3]. intros Hn (H0 & H1 & H2 & H3).
  destruct Hn as [-> | [-> | [-> | [-> | ->]]]]; run_blk; unfold block_ok;
    repeat split; apply word_ok_lor;
    first [ apply mask_word_ok | apply word_ok_shr; [assumption | lia] ].
Qed.

(** Bits of the shifts, masks and unions the rotation is made of. *)
Ltac bit_step :=
  match goal with
  | |- context [Z.testbit (Z.lor ?a ?b) ?i] => rewrite (Z.lor_spec a b i)
  | |- context [Z.testbit (Z.land ?a ?b) ?i] => rewrite (Z.land_spec a b i)
  | |- context [Z.testbit (Z.ones ?n) ?i] =>
      first [ rewrite (Z.ones_spec_low n i) by lia
            | rewrite (Z.ones_spec_high n i) by lia
            | rewrite (Z.testbit_neg_r (Z.ones n) i) by lia ]
  | |- context [Z.testbit (Z.shiftl ?a ?n) ?i] =>
      first [ rewrite (Z.testbit_neg_r (Z.shiftl a n) i) by lia
            | rewrite (Z.shiftl_spec a n i) by lia ]
  | |- context [Z.testbit (Z.shiftr ?a ?n) ?i] =>
      first [ rewrite (Z.testbit_neg_r (Z.shiftr a n) i) by lia
            | rewrite (Z.shiftr_spec a n i) by lia ]
  | |- context [Z.testbit ?x ?i] =>
      is_var x; rewrite (Z.testbit_neg_r x i) by lia
  end.

Ltac bits :=
  repeat bit_step;
  rewrite ?andb_true_r, ?andb_false_r, ?orb_false_r, ?orb_false_l;
  try reflexivity;
  try (f_equal; lia).

Ltac rot_word s :=
  apply Z.bits_inj'; intros i Hi;
  destruct (Z.lt_ge_cases i s); [bits|];
  destruct (Z.lt_ge_cases i 32); bits.

(** [ROL128] is the rotation of the 128-bit number to the left. *)
Lemma ROL128_rotl n x :
  n = 109%nat \/ n = 97%nat \/ n = 61%nat \/ n = 31%nat \/ n = 19%nat ->
  block_ok x -> ROL128_blk n x = rotl128 x (Z.of_nat n).
Proof.
  destruct x as [[[x0 x1] x2] x3]. intros Hn (H0 & H1 & H2 & H3).
  unfold rotl128, Z_of_block, block_of_Z.
  destruct Hn as [-> | [-> | [-> | [-> | ->]]]]; run_blk;
    cbn [Z.of_nat Pos.of_succ_nat Pos.succ Z.sub Z.add Z.opp Z.pos_sub
         Pos.pred_double Z.succ_double Z.pred_double Z.double];
    rewrite (word_ok_mask x0 H0), (word_ok_mask x1 H1),
      (word_ok_mask x2 H2), (word_ok_mask x3 H3);
    masks; apply block_eq.
  1-4: rot_word 13.
  1-4: rot_word 1.
  1-4: rot_word 29.
  1-4: rot_word 31.
  1-4: rot_word 19.
Qed.

(** ** Frames *)

Ltac split_seqs K_seqs :=
  repeat lazymatch goal with |- _ (seqs _ _) => apply K_seqs end.

Section Keeps.
Variable K : stmt -> Prop.
Variable okp : ptr -> Prop.
Hypothesis okp_t : okp t.
Hypothesis K_seqs : forall f g, K f -> K g -> K (f ;; g).
Hypothesis K_assign : forall a i e, okp a -> K (assign a i e).
Hypothesis K_xor : forall a i e, okp a -> K (assign_xor a i e).

Lemma K_MOV128 b a : okp b -> K (MOV128 b a).
Proof. intros H. unfold MOV128. split_seqs K_seqs; now apply K_assign. Qed.

Lemma K_XOR128 b a : okp b -> K (XOR128 b a).
Proof. intros H. unfold XOR128. split_seqs K_seqs; now apply K_xor. Qed.

Lemma K_SL1 b a : okp b -> K (SL1 b a).
Proof.
  intros H. unfold SL1. cbv zeta.
  split_seqs K_seqs; now apply K_assign.
Qed.

Lemma K_SL2 b a : okp b -> K (SL2 b a).
Proof.
  intros H. unfold SL2. cbv zeta.
  split_seqs K_seqs; now apply K_assign.
Qed.

Lemma K_A b a : okp b -> K (A b a).
Proof.
  intros H. unfold A. cbv zeta.
  split_seqs K_seqs; now apply K_assign.
Qed.

Lemma K_OF d rk : okp d -> K (OF d rk).
Proof.
  intros H. unfold OF.
  split_seqs K_seqs; [now apply K_XOR128 | now apply K_SL1 | now apply K_A].
Qed.

Lemma K_EF d rk : okp d -> K (EF d rk).
Proof.
  intros H. unfold EF.
  split_seqs K_seqs; [now apply K_XOR128 | now apply K_SL2 | now apply K_A].
Qed.
End Keeps.

Lemma keeps_ctx_seqs f g : keeps_ctx f -> keeps_ctx g -> keeps_ctx (f ;; g).
Proof. intros Hf Hg m. unfold seqs. now rewrite Hg, Hf. Qed.

Lemma keeps_ctx_assign a i e : local a = true -> keeps_ctx (assign a i e).
Proof. intros H m. now apply ctx_wr_local. Qed.

Lemma keeps_ctx_xor a i e : local a = true -> keeps_ctx (assign_xor a i e).
Proof. intros H m. now apply ctx_wr_local. Qed.

Lemma keeps_ctx_ifs cond f g : keeps_ctx f -> keeps_ctx g -> keeps_ctx (ifs cond f g).
Proof. intros Hf Hg m. unfold ifs. destruct (cond m); auto. Qed.

Ltac keeps_ctx_tac :=
  repeat lazymatch goal with
  | |- keeps_ctx (seqs _ _) => apply keeps_ctx_seqs
  | |- keeps_ctx (ifs _ _ _) => apply keeps_ctx_ifs
  | |- keeps_ctx (assign _ _ _) => apply keeps_ctx_assign; reflexivity
  | |- keeps_ctx (OF _ _) =>
      apply (K_OF keeps_ctx is_local eq_refl keeps_ctx_seqs keeps_ctx_assign keeps_ctx_xor); reflexivity
  | |- keeps_ctx (EF _ _) =>
      apply (K_EF keeps_ctx is_local eq_refl keeps_ctx_seqs keeps_ctx_assign keeps_ctx_xor); reflexivity
  | |- keeps_ctx (XOR128 _ _) =>
      apply (K_XOR128 keeps_ctx is_local keeps_ctx_seqs keeps_ctx_xor); reflexivity
  | |- keeps_ctx (SL2 _ _) =>
      apply (K_SL2 keeps_ctx is_local keeps_ctx_seqs keeps_ctx_assign);
      reflexivity
  end.

(** The block functions write to their local arrays only. *)
Lemma ariaEncryptBlock_keeps input : keeps_ctx (ariaEncryptBlock_mem input).
Proof. unfold ariaEncryptBlock_mem. cbv zeta. keeps_ctx_tac. Qed.

Lemma ariaDecryptBlock_keeps input : keeps_ctx (ariaDecryptBlock_mem input).
Proof. unfold ariaDecryptBlock_mem. cbv zeta. keeps_ctx_tac. Qed.

(** Nothing in [ariaInit] after the choice of the round count writes it. *)
Lemma keeps_nr_seqs f g : keeps_nr f -> keeps_nr g -> keeps_nr (f ;; g).
Proof. intros Hf Hg m. unfold seqs. now rewrite Hg, Hf. Qed.

Lemma keeps_nr_assign a i e : keeps_nr (assign a i e).
Proof. intros m. apply nr_wr. Qed.

Lemma keeps_nr_xor a i e : keeps_nr (assign_xor a i e).
Proof. intros m. apply nr_wr. Qed.

Lemma keeps_nr_ifs cond f g : keeps_nr f -> keeps_nr g -> keeps_nr (ifs cond f g).
Proof. intros Hf Hg m. unfold ifs. destruct (cond m); auto. Qed.

Lemma keeps_nr_for lo n body :
  (forall i, keeps_nr (body i)) -> keeps_nr (for_range lo n body).
Proof.
  intros H. unfold for_range. revert lo. induction n as [|n IH]; intros lo m.
  - reflexivity.
  - cbn [seq fold_left]. fold (for_range (S lo) n body (body lo m)).
    unfold for_range. now rewrite IH, H.
Qed.

Lemma ROL128_keeps_nr b a n : keeps_nr (ROL128 b a n).
Proof.
  unfold ROL128. cbv zeta. split_seqs keeps_nr_seqs; apply keeps_nr_assign.
Qed.

Ltac keeps_nr_leaf :=
  intros; first
    [ apply keeps_nr_assign | apply keeps_nr_xor | exact I ].

Ltac keeps_nr_tac :=
  repeat lazymatch goal with
  | |- keeps_nr (seqs _ _) => apply keeps_nr_seqs
  | |- keeps_nr (ifs _ _ _) => apply keeps_nr_ifs
  | |- keeps_nr (for_range _ _ _) => apply keeps_nr_for; intros ?i
  | |- keeps_nr (assign _ _ _) => apply keeps_nr_assign
  | |- keeps_nr (ROL128 _ _ _) => apply ROL128_keeps_nr
  | |- keeps_nr (OF _ _) => apply (K_OF keeps_nr (fun _ => True) I keeps_nr_seqs); keeps_nr_leaf
  | |- keeps_nr (EF _ _) => apply (K_EF keeps_nr (fun _ => True) I keeps_nr_seqs); keeps_nr_leaf
  | |- keeps_nr (MOV128 _ _) =>
      apply (K_MOV128 keeps_nr (fun _ => True) keeps_nr_seqs); keeps_nr_leaf
  | |- keeps_nr (XOR128 _ _) =>
      apply (K_XOR128 keeps_nr (fun _ => True) keeps_nr_seqs); keeps_nr_leaf
  | |- keeps_nr (A _ _) => apply (K_A keeps_nr (fun _ => True) keeps_nr_seqs); keeps_nr_leaf
  end.

Lemma ariaInit_schedule_keeps_nr key keyLen ck1 ck2 ck3 :
  keeps_nr (ariaInit_schedule key keyLen ck1 ck2 ck3).
Proof.
  unfold ariaInit_schedule. split_seqs keeps_nr_seqs.
  - unfold ariaInit_words. cbv zeta. keeps_nr_tac.
  - unfold ariaInit_ek. cbv zeta. keeps_nr_tac.
  - intros m. unfold ariaInit_dk. cbv zeta.
    set (n := Z.to_nat (nr (m_ctx m))).
    assert (H1 : forall b a, keeps_nr (MOV128 b a)) by (intros; keeps_nr_tac).
    assert (H2 : forall lo k, keeps_nr (for_range lo k (fun i =>
                   A ((Bdk, 0%nat) +> i * 4) ((Bek, 0%nat) +> (n - i) * 4))))
      by (intros; keeps_nr_tac).
    now rewrite H1, H2, H1.
Qed.

(** ** The key schedule on well-formed keys *)

Lemma KL_ok key : bytes_ok key -> block_ok (KL key).
Proof. apply load_block_ok. Qed.

Lemma KR_ok key : bytes_ok key -> block_ok (KR key).
Proof. intros H. apply load_block_ok. now apply bytes_ok_skipn. Qed.

Lemma W_code_ok key keyLen k : bytes_ok key -> block_ok (W_code key keyLen k).
Proof.
  intros H. unfold W_code.
  destruct (ck_offsets keyLen) as [[o1 o2] o3].
  pose proof (KL_ok key H) as HL. pose proof (KR_ok key H) as HR.
  destruct k as [|[|[|k]]].
  - exact HL.
  - apply XOR128_blk_ok; [apply OF_blk_ok | exact HR].
  - apply XOR128_blk_ok; [apply EF_blk_ok | exact HL].
  - apply XOR128_blk_ok; [apply OF_blk_ok |].
    apply XOR128_blk_ok; [apply OF_blk_ok | exact HR].
Qed.

Lemma rot_amount_cases r :
  rot_amount r = 109%nat \/ rot_amount r = 97%nat \/ rot_amount r = 61%nat \/
  rot_amount r = 31%nat \/ rot_amount r = 19%nat.
Proof.
  unfold rot_amount.
  destruct (r <=? 4)%nat; [tauto|].
  destruct (r <=? 8)%nat; [tauto|].
  destruct (r <=? 12)%nat; [tauto|].
  destruct (r <=? 16)%nat; tauto.
Qed.

Lemma ek_code_ok W r : (forall k, block_ok (W k)) -> block_ok (ek_code W r).
Proof.
  intros H. unfold ek_code, W_src, W_part.
  apply XOR128_blk_ok; [|apply H].
  apply ROL128_blk_ok; [apply rot_amount_cases | apply H].
Qed.

(** ** Successful initialisation *)

Lemma ariaInit_mem_error c0 key keyLen :
  keyLen <> 16 -> keyLen <> 24 -> keyLen <> 32 ->
  ariaInit_mem c0 key keyLen = (ERROR_INVALID_KEY_LENGTH, enter c0).
Proof.
  intros H1 H2 H3. unfold ariaInit_mem.
  apply Z.eqb_neq in H1, H2, H3. now rewrite H1, H2, H3.
Qed.

Lemma ariaInit_some c0 key keyLen :
  ariaInit (Some c0) (Some key) keyLen =
  (fst (ariaInit_mem c0 key keyLen),
   Some (m_ctx (snd (ariaInit_mem c0 key keyLen)))).
Proof. unfold ariaInit. now destruct (ariaInit_mem c0 key keyLen). Qed.

Lemma ariaInit_success c0 key keyLen ctx :
  ariaInit (Some c0) (Some key) keyLen = (NO_ERROR, Some ctx) ->
  (keyLen = 16 \/ keyLen = 24 \/ keyLen = 32) /\
  ctx = m_ctx (snd (ariaInit_mem c0 key keyLen)).
Proof.
  rewrite ariaInit_some. intros H.
  assert (He : fst (ariaInit_mem c0 key keyLen) = NO_ERROR) by congruence.
  assert (Hc : ctx = m_ctx (snd (ariaInit_mem c0 key keyLen))) by congruence.
  split; [|exact Hc].
  destruct (Z.eq_dec keyLen 16) as [|H1]; [tauto|].
  destruct (Z.eq_dec keyLen 24) as [|H2]; [tauto|].
  destruct (Z.eq_dec keyLen 32) as [|H3]; [tauto|].
  rewrite ariaInit_mem_error in He by assumption. discriminate.
Qed.

Lemma nr_of_cases keyLen :
  keyLen = 16 \/ keyLen = 24 \/ keyLen = 32 ->
  nr_of keyLen = 12 \/ nr_of keyLen = 14 \/ nr_of keyLen = 16.
Proof. intros [-> | [-> | ->]]; cbv; tauto. Qed.

Lemma nr_of_formula keyLen :
  keyLen = 16 \/ keyLen = 24 \/ keyLen = 32 ->
  nr_of keyLen = 12 + 2 * (keyLen / 8 - 2).
Proof. intros [-> | [-> | ->]]; reflexivity. Qed.

Lemma ariaInit_initialised c0 key keyLen ctx :
  ctx_ok c0 -> Z.of_nat (length key) = keyLen ->
  ariaInit (Some c0) (Some key) keyLen = (NO_ERROR, Some ctx) ->
  initialised keyLen key ctx.
Proof.
  intros Hc Hlen Hs. apply ariaInit_success in Hs. destruct Hs as [Hk ->].
  destruct (ariaInit_mem_spec c0 key keyLen Hc Hk Hlen) as [_ S].
  destruct S as [Sok Snr Sw Sek Sdk0 Sdk Sdkn].
  split.
  - now apply mem_ok_ctx.
  - exact Snr.
  - rewrite Snr. now apply nr_of_cases.
  - exact Sek.
  - rewrite Snr. repeat split; assumption.
Qed.

Lemma initialised_even keyLen key ctx :
  initialised keyLen key ctx ->
  Nat.even (Z.to_nat (nr ctx)) = true /\ (2 <= Z.to_nat (nr ctx) <= 16)%nat.
Proof.
  intros H. destruct (ini_nr_cases _ _ _ H) as [-> | [-> | ->]];
    split; try reflexivity; lia.
Qed.

Lemma initialised_ek_ok keyLen key ctx :
  bytes_ok key -> initialised keyLen key ctx ->
  forall i, (i <= Z.to_nat (nr ctx))%nat -> block_ok (blk (ek ctx) i).
Proof.
  intros Hb H i Hi.
  destruct (initialised_even _ _ _ H) as [_ Hn].
  replace i with (S i - 1)%nat by lia.
  rewrite (ini_ek _ _ _ H) by lia.
  apply ek_code_ok. intros k. now apply W_code_ok.
Qed.

(** ** Round trips of the block transform *)

Lemma crypt_code_eq n RK input output :
  crypt_code n RK input output =
  store_bytes (crypt_blk n RK (load_block input)) output.
Proof. reflexivity. Qed.

Lemma crypt_blk_ok n RK s : block_ok (RK n) -> block_ok (crypt_blk n RK s).
Proof.
  intros H. unfold crypt_blk. apply XOR128_blk_ok; [apply SL2_blk_ok | exact H].
Qed.

Lemma crypt_code_mirror n RK RK' P out1 out2 :
  Nat.even n = true -> (2 <= n)%nat ->
  (forall i, (i <= n)%nat -> block_ok (RK i)) ->
  mirrored n RK RK' ->
  bytes_ok P -> length P = 16%nat ->
  length out1 = 16%nat -> length out2 = 16%nat ->
  crypt_code n RK' (crypt_code n RK P out1) out2 = P.
Proof.
  intros He Hn Hok Hm HP HlP Hl1 Hl2.
  rewrite !crypt_code_eq.
  rewrite load_store; [| apply crypt_blk_ok, Hok; lia | exact Hl1].
  rewrite crypt_blk_mirror; try assumption.
  - now apply store_load.
  - now apply load_block_ok.
Qed.

Lemma block_round_trip keyLen key ctx P out1 out2 :
  bytes_ok key -> initialised keyLen key ctx ->
  bytes_ok P -> length P = 16%nat ->
  length out1 = 16%nat -> length out2 = 16%nat ->
  snd (ariaDecryptBlock ctx (snd (ariaEncryptBlock ctx P out1)) out2) = P /\
  snd (ariaEncryptBlock ctx (snd (ariaDecryptBlock ctx P out1)) out2) = P.
Proof.
  intros Hb H HP HlP Hl1 Hl2.
  pose proof (ini_ok _ _ _ H) as Hc.
  pose proof (ini_nr_cases _ _ _ H) as Hn.
  destruct (initialised_even _ _ _ H) as [He Hr].
  pose proof (initialised_ek_ok _ _ _ Hb H) as Hek.
  pose proof (ini_dk _ _ _ H) as Hm.
  split.
  - rewrite (encrypt_rounds ctx P out1 Hc Hn). cbn [snd].
    rewrite decrypt_rounds by assumption. cbn [snd].
    apply crypt_code_mirror; try assumption. lia.
  - rewrite (decrypt_rounds ctx P out1 Hc Hn). cbn [snd].
    rewrite encrypt_rounds by assumption. cbn [snd].
    apply crypt_code_mirror; try assumption.
    + lia.
    + now apply (mirrored_ok _ (blk (ek ctx))).
    + now apply mirrored_sym.
Qed.

(** ** The output buffer *)

Lemma skipn_upd n i v l : (i < n)%nat -> skipn n (upd i v l) = skipn n l.
Proof.
  revert i l. induction n as [|n IH]; intros i l Hi; [lia|].
  destruct l as [|x l]; [now destruct i|].
  destruct i as [|i]; cbn [upd skipn]; [reflexivity|].
  apply IH. lia.
Qed.

Lemma STORE32BE_length a p0 off : length (STORE32BE a p0 off) = length p0.
Proof. unfold STORE32BE. now rewrite !length_upd. Qed.

Lemma STORE32BE_skipn n a p0 off :
  (off + 3 < n)%nat -> skipn n (STORE32BE a p0 off) = skipn n p0.
Proof. intros H. unfold STORE32BE. rewrite !skipn_upd by lia. reflexivity. Qed.

Lemma store_block_length m output : length (store_block m output) = length output.
Proof. unfold store_block. now rewrite !STORE32BE_length. Qed.

Lemma store_block_skipn m output :
  skipn 16 (store_block m output) = skipn 16 output.
Proof. unfold store_block. rewrite !STORE32BE_skipn by lia. reflexivity. Qed.

Lemma ariaEncryptBlock_ctx ctx input output :
  fst (ariaEncryptBlock ctx input output) = ctx.
Proof. unfold ariaEncryptBlock. cbn [fst]. now rewrite ariaEncryptBlock_keeps. Qed.

Lemma ariaDecryptBlock_ctx ctx input output :
  fst (ariaDecryptBlock ctx input output) = ctx.
Proof. unfold ariaDecryptBlock. cbn [fst]. now rewrite ariaDecryptBlock_keeps. Qed.

(** ** The round count *)

Lemma ariaInit_mem_nr c0 key keyLen :
  keyLen = 16 \/ keyLen = 24 \/ keyLen = 32 ->
  nr (m_ctx (snd (ariaInit_mem c0 key keyLen))) = nr_of keyLen.
Proof.
  intros [-> | [-> | ->]]; unfold ariaInit_mem;
    cbn [Z.eqb Pos.eqb snd]; now rewrite ariaInit_schedule_keeps_nr.
Qed.

(** * The code against the specification's words *)

Lemma state_bytes_eq x0 x1 x2 x3 :
  state_bytes (x0, x1, x2, x3) =
  [Z.land (shr32 x0 24) 255; Z.land (shr32 x0 16) 255;
   Z.land (shr32 x0 8) 255; Z.land (shr32 x0 0) 255;
   Z.land (shr32 x1 24) 255; Z.land (shr32 x1 16) 255;
   Z.land (shr32 x1 8) 255; Z.land (shr32 x1 0) 255;
   Z.land (shr32 x2 24) 255; Z.land (shr32 x2 16) 255;
   Z.land (shr32 x2 8) 255; Z.land (shr32 x2 0) 255;
   Z.land (shr32 x3 24) 255; Z.land (shr32 x3 16) 255;
   Z.land (shr32 x3 8) 255; Z.land (shr32 x3 0) 255].
Proof.
  unfold state_bytes. rewrite store_bytes_eq by reflexivity.
  now rewrite !shr32_0.
Qed.

Ltac run_spec :=
  cbv [SL1_spec SL2_spec A_spec state_of_bytes sub_bytes A_rows xor_all
       load_block LOAD32BE map combine seq length fold_left fst snd nth
       Nat.add Nat.modulo Nat.divmod Nat.sub].

(** [XOR128] is the xor of the words. *)
Lemma XOR128_blk_spec x y : XOR128_blk x y = xor128 x y.
Proof.
  destruct x as [[[x0 x1] x2] x3], y as [[[y0 y1] y2] y3].
  apply XOR128_blk_eq.
Qed.

(** [SL1] applies the tables [sb1, sb2, sb3, sb4] along the bytes. *)
Lemma SL1_blk_spec x : SL1_blk x = SL1_spec x.
Proof.
  destruct x as [[[x0 x1] x2] x3].
  unfold SL1_spec. rewrite state_bytes_eq. run_spec. run_blk. reflexivity.
Qed.

(** [SL2] applies the tables [sb3, sb4, sb1, sb2] along the bytes. *)
Lemma SL2_blk_spec x : SL2_blk x = SL2_spec x.
Proof.
  destruct x as [[[x0 x1] x2] x3].
  unfold SL2_spec. rewrite state_bytes_eq. run_spec. run_blk. reflexivity.
Qed.

(** [A] xors into each output byte the seven input bytes of its row. *)
Lemma A_blk_spec x : A_blk x = A_spec x.
Proof.
  destruct x as [[[x0 x1] x2] x3].
  unfold A_spec. cbv zeta. rewrite state_bytes_eq. run_spec.
  rewrite !Z.lxor_0_l. run_blk. reflexivity.
Qed.

(** [OF] and [EF] are [A(SL1(D XOR RK))] and [A(SL2(D XOR RK))]. *)
Lemma OF_blk_spec d rk : OF_blk d rk = OF_spec d rk.
Proof.
  rewrite OF_blk_eq. unfold OF_spec.
  now rewrite XOR128_blk_spec, SL1_blk_spec, A_blk_spec.
Qed.

Lemma EF_blk_spec d rk : EF_blk d rk = EF_spec d rk.
Proof.
  rewrite EF_blk_eq. unfold EF_spec.
  now rewrite XOR128_blk_spec, SL2_blk_spec, A_blk_spec.
Qed.

Lemma rounds_rounds_spec n i RK s : rounds n i RK s = rounds_spec n i RK s.
Proof.
  revert i s. induction n as [|n IH]; intros i s; [reflexivity|].
  cbn [rounds rounds_spec]. rewrite IH.
  now rewrite OF_blk_spec, EF_blk_spec.
Qed.

Lemma crypt_code_spec n RK input output :
  crypt_code n RK input output = crypt_spec n RK input output.
Proof.
  unfold crypt_code, crypt_spec. cbv zeta.
  now rewrite rounds_rounds_spec, !XOR128_blk_spec, SL2_blk_spec.
Qed.

Lemma W_code_spec key keyLen k : W_code key keyLen k = W_spec key keyLen k.
Proof.
  unfold W_code, W_spec. destruct (ck_offsets keyLen) as [[o1 o2] o3].
  cbv zeta.
  rewrite (OF_blk_spec (KL key)), (XOR128_blk_spec _ (KR key)).
  rewrite (EF_blk_spec _ (blk c (o2 / 4))), (XOR128_blk_spec _ (KL key)).
  rewrite (OF_blk_spec _ (blk c (o3 / 4))), XOR128_blk_spec.
  reflexivity.
Qed.

Lemma ek_code_spec key keyLen r :
  bytes_ok key ->
  ek_code (W_code key keyLen) r = ek_spec (W_spec key keyLen) r.
Proof.
  intros H. unfold ek_code, ek_spec, W_src, W_part.
  rewrite XOR128_blk_spec.
  rewrite ROL128_rotl; [| apply rot_amount_cases | now apply W_code_ok].
  rewrite (W_code_spec key keyLen (r mod 4)).
  rewrite (W_code_spec key keyLen ((r - 1) mod 4)).
  reflexivity.
Qed.

(** * Edge behaviour of the code *)

(** ** A round count other than 12 and 14 *)

(** The last branch of the block functions is taken for every round count
    but 12 and 14, and runs sixteen rounds. *)
Lemma crypt_tail_else b c0 m s :
  holds m c0 s -> local (b, 0%nat) = false ->
  nr c0 <> 12 -> nr c0 <> 14 ->
  let m' := crypt_tail (b, 0%nat) m in
  let RK := blk (buf (enter c0) b) in
  m_ctx m' = c0 /\
  get128 m' q =
    XOR128_blk (SL2_blk (XOR128_blk (rounds 4 12 RK s) (RK 15%nat)))
      (RK 16%nat).
Proof.
  intros H Hb H12 H14 m' RK. subst m' RK. unfold crypt_tail.
  assert (Hnr : nr (m_ctx m) = nr c0) by (destruct H as (_ & -> & _); reflexivity).
  rewrite ifs_false by (rewrite Hnr; now apply Z.eqb_neq).
  rewrite ifs_false by (rewrite Hnr; now apply Z.eqb_neq).
  apply (rounds2 b 44 48 11 _ _ _ eq_refl eq_refl eq_refl) in H; [|assumption].
  apply (rounds2 b 52 56 13 _ _ _ eq_refl eq_refl eq_refl) in H; [|assumption].
  cbn [Nat.sub rounds Nat.odd Nat.even negb] in H.
  cbn [Nat.sub rounds Nat.odd Nat.even negb].
  pose proof (final_round b 60 64 15 16 _ c0 _ eq_refl eq_refl H Hb) as HH.
  cbv zeta in HH. rewrite !seqs_app in *. exact HH.
Qed.

Lemma crypt_mem_else b c0 input :
  ctx_ok c0 -> nr c0 <> 12 -> nr c0 <> 14 ->
  local (b, 0%nat) = false ->
  let m := crypt_mem b input (enter c0) in
  let RK := blk (buf (enter c0) b) in
  m_ctx m = c0 /\
  get128 m q =
    XOR128_blk (SL2_blk (XOR128_blk (rounds 15 1 RK (load_block input))
                           (RK 15%nat))) (RK 16%nat).
Proof.
  intros Hc H12 H14 Hb m RK. subst m. unfold crypt_mem.
  pose proof (load_holds c0 input Hc) as H.
  apply (rounds11 b) in H; [|assumption].
  destruct (crypt_tail_else b c0 _ _ H Hb H12 H14) as [H1 H2].
  split; [exact H1|]. rewrite H2.
  fold RK.
  pose proof (rounds_app 11 4 1 RK (load_block input)) as E.
  cbn [Nat.add] in E. rewrite E. reflexivity.
Qed.

Lemma encrypt_else c0 input output :
  ctx_ok c0 -> nr c0 <> 12 -> nr c0 <> 14 ->
  ariaEncryptBlock c0 input output =
  (c0, crypt_code 16 (blk (ek c0)) input output).
Proof.
  intros Hc H12 H14.
  destruct (crypt_mem_else Bek c0 input Hc H12 H14 eq_refl) as [H1 H2].
  unfold ariaEncryptBlock. cbv zeta.
  rewrite store_block_eq, ariaEncryptBlock_mem_eq, H1, H2. reflexivity.
Qed.

Lemma decrypt_else c0 input output :
  ctx_ok c0 -> nr c0 <> 12 -> nr c0 <> 14 ->
  ariaDecryptBlock c0 input output =
  (c0, crypt_code 16 (blk (dk c0)) input output).
Proof.
  intros Hc H12 H14.
  destruct (crypt_mem_else Bdk c0 input Hc H12 H14 eq_refl) as [H1 H2].
  unfold ariaDecryptBlock. cbv zeta.
  rewrite store_block_eq, ariaDecryptBlock_mem_eq, H1, H2. reflexivity.
Qed.

(** ** The key bytes [ariaInit] reads *)

Lemma for_range_ext lo n f g m :
  (forall i m', (lo <= i < lo + n)%nat -> f i m' = g i m') ->
  for_range lo n f m = for_range lo n g m.
Proof.
  unfold for_range. revert lo m. induction n as [|n IH]; intros lo m H.
  - reflexivity.
  - cbn [seq fold_left]. rewrite H by lia. apply IH.
    intros i m' Hi. apply H. lia.
Qed.

Lemma LOAD32BE_app l l' o :
  (o + 3 < length l)%nat -> LOAD32BE (l ++ l') o = LOAD32BE l o.
Proof.
  intros H. unfold LOAD32BE. now rewrite !app_nth1 by lia.
Qed.

Lemma load_loop_app key rest keyLen m :
  Z.of_nat (length key) = keyLen ->
  for_range 0 16 (fun i =>
    ifs (fun _ => Z.of_nat i <? keyLen / 4)
      (assign w i (fun _ => LOAD32BE (key ++ rest) (i * 4)))
      (assign w i (fun _ => 0))) m =
  for_range 0 16 (fun i =>
    ifs (fun _ => Z.of_nat i <? keyLen / 4)
      (assign w i (fun _ => LOAD32BE key (i * 4)))
      (assign w i (fun _ => 0))) m.
Proof.
  intros Hlen. apply for_range_ext. intros i m' _. unfold ifs.
  destruct (Z.ltb_spec (Z.of_nat i) (keyLen / 4)) as [Hi|Hi]; [|reflexivity].
  unfold assign. rewrite LOAD32BE_app; [reflexivity|].
  assert (4 * (keyLen / 4) <= keyLen) by (apply Z.mul_div_le; lia).
  lia.
Qed.

Lemma ariaInit_words_app key rest keyLen ck1 ck2 ck3 m :
  Z.of_nat (length key) = keyLen ->
  ariaInit_words (key ++ rest) keyLen ck1 ck2 ck3 m =
  ariaInit_words key keyLen ck1 ck2 ck3 m.
Proof.
  intros Hlen. unfold ariaInit_words. cbv zeta. rewrite !seqs_app.
  rewrite (load_loop_app key rest keyLen m Hlen). reflexivity.
Qed.

Lemma ariaInit_mem_app c0 key rest keyLen :
  Z.of_nat (length key) = keyLen ->
  ariaInit_mem c0 (key ++ rest) keyLen = ariaInit_mem c0 key keyLen.
Proof.
  intros Hlen. unfold ariaInit_mem, ariaInit_schedule. cbv zeta.
  rewrite !seqs_app.
  now rewrite !(ariaInit_words_app key rest keyLen) by assumption.
Qed.

(** ** The words of [dk] that [ariaInit] does not write *)

Lemma kd_seqs j f g :
  keeps_dk_word j f -> keeps_dk_word j g -> keeps_dk_word j (f ;; g).
Proof. intros Hf Hg m. unfold seqs. now rewrite Hg, Hf. Qed.

Lemma kd_wr j a i v m :
  (i < 4)%nat -> off_dk_word j a ->
  nth j (dk (m_ctx (wr a i v m))) 0 = nth j (dk (m_ctx m)) 0.
Proof.
  intros Hi Ha.
  change (rd (wr a i v m) (Bdk, 0%nat) j = rd m (Bdk, 0%nat) j).
  apply rd_wr_other. cbn [fst snd].
  destruct Ha as [Ha | Ha]; [left; congruence | right; lia].
Qed.

Lemma kd_assign j a i e :
  (i < 4)%nat -> off_dk_word j a -> keeps_dk_word j (assign a i e).
Proof. intros Hi Ha m. now apply kd_wr. Qed.

Lemma kd_assign_other j a i e :
  fst a <> Bdk -> keeps_dk_word j (assign a i e).
Proof.
  intros Ha m.
  change (rd (wr a i (e m) m) (Bdk, 0%nat) j = rd m (Bdk, 0%nat) j).
  apply rd_wr_other. left. cbn [fst]. congruence.
Qed.

Lemma kd_or j a i e :
  (i < 4)%nat -> off_dk_word j a -> keeps_dk_word j (assign_or a i e).
Proof. intros Hi Ha m. now apply kd_wr. Qed.

Lemma kd_xor j a i e :
  (i < 4)%nat -> off_dk_word j a -> keeps_dk_word j (assign_xor a i e).
Proof. intros Hi Ha m. now apply kd_wr. Qed.

Lemma kd_ifs j cond f g :
  keeps_dk_word j f -> keeps_dk_word j g -> keeps_dk_word j (ifs cond f g).
Proof. intros Hf Hg m. unfold ifs. destruct (cond m); auto. Qed.

Lemma kd_for j lo n body :
  (forall i, (lo <= i < lo + n)%nat -> keeps_dk_word j (body i)) ->
  keeps_dk_word j (for_range lo n body).
Proof.
  unfold for_range. revert lo. induction n as [|n IH]; intros lo H m.
  - reflexivity.
  - cbn [seq fold_left].
    rewrite (IH (S lo)) by (intros i Hi; apply H; lia).
    apply H. lia.
Qed.

Ltac kd_leaves :=
  split_seqs kd_seqs;
  lazymatch goal with
  | |- keeps_dk_word _ (assign _ _ _) => apply kd_assign; [lia | assumption]
  | |- keeps_dk_word _ (assign_or _ _ _) => apply kd_or; [lia | assumption]
  | |- keeps_dk_word _ (assign_xor _ _ _) => apply kd_xor; [lia | assumption]
  end.

Lemma kd_MOV128 j b a : off_dk_word j b -> keeps_dk_word j (MOV128 b a).
Proof. intros H. unfold MOV128. kd_leaves. Qed.

Lemma kd_XOR128 j b a : off_dk_word j b -> keeps_dk_word j (XOR128 b a).
Proof. intros H. unfold XOR128. kd_leaves. Qed.

Lemma kd_ROL128 j b a n : off_dk_word j b -> keeps_dk_word j (ROL128 b a n).
Proof. intros H. unfold ROL128. cbv zeta. kd_leaves. Qed.

Lemma kd_SL1 j b a : off_dk_word j b -> keeps_dk_word j (SL1 b a).
Proof. intros H. unfold SL1. cbv zeta. kd_leaves. Qed.

Lemma kd_SL2 j b a : off_dk_word j b -> keeps_dk_word j (SL2 b a).
Proof. intros H. unfold SL2. cbv zeta. kd_leaves. Qed.

Lemma kd_A j b a : off_dk_word j b -> keeps_dk_word j (A b a).
Proof. intros H. unfold A. cbv zeta. kd_leaves. Qed.

Lemma off_dk_word_t j : off_dk_word j t.
Proof. left. discriminate. Qed.

Lemma kd_OF j d rk : off_dk_word j d -> keeps_dk_word j (OF d rk).
Proof.
  intros H. unfold OF. split_seqs kd_seqs;
    [ now apply kd_XOR128 | apply kd_SL1, off_dk_word_t | now apply kd_A ].
Qed.

Lemma kd_EF j d rk : off_dk_word j d -> keeps_dk_word j (EF d rk).
Proof.
  intros H. unfold EF. split_seqs kd_seqs;
    [ now apply kd_XOR128 | apply kd_SL2, off_dk_word_t | now apply kd_A ].
Qed.

Ltac kd_tac :=
  repeat lazymatch goal with
  | |- keeps_dk_word _ (seqs _ _) => apply kd_seqs
  | |- keeps_dk_word _ (ifs _ _ _) => apply kd_ifs
  | |- keeps_dk_word _ (assign _ _ _) => apply kd_assign
  | |- keeps_dk_word _ (ROL128 _ _ _) => apply kd_ROL128
  | |- keeps_dk_word _ (OF _ _) => apply kd_OF
  | |- keeps_dk_word _ (EF _ _) => apply kd_EF
  | |- keeps_dk_word _ (MOV128 _ _) => apply kd_MOV128
  | |- keeps_dk_word _ (XOR128 _ _) => apply kd_XOR128
  end.

Lemma kd_words j key keyLen ck1 ck2 ck3 :
  keeps_dk_word j (ariaInit_words key keyLen ck1 ck2 ck3).
Proof.
  unfold ariaInit_words. cbv zeta. kd_tac;
    try (left; discriminate).
  apply kd_for. intros i Hi.
  apply kd_ifs; apply kd_assign_other; discriminate.
Qed.

Lemma kd_ek j : keeps_dk_word j ariaInit_ek.
Proof. unfold ariaInit_ek. cbv zeta. kd_tac; left; discriminate. Qed.

Lemma kd_dk j m :
  (1 <= Z.to_nat (nr (m_ctx m)))%nat ->
  (4 * (Z.to_nat (nr (m_ctx m)) + 1) <= j)%nat ->
  nth j (dk (m_ctx (ariaInit_dk m))) 0 = nth j (dk (m_ctx m)) 0.
Proof.
  intros H1 Hj. unfold ariaInit_dk. cbv zeta.
  set (n := Z.to_nat (nr (m_ctx m))) in *.
  rewrite kd_MOV128 by (right; cbn [padd fst snd]; lia).
  rewrite kd_for.
  - apply kd_MOV128. right. cbn [padd fst snd]. lia.
  - intros i Hi. apply kd_A. right. cbn [padd fst snd]. lia.
Qed.

Lemma kd_schedule j key keyLen ck1 ck2 ck3 m :
  (1 <= Z.to_nat (nr (m_ctx m)))%nat ->
  (4 * (Z.to_nat (nr (m_ctx m)) + 1) <= j)%nat ->
  nth j (dk (m_ctx (ariaInit_schedule key keyLen ck1 ck2 ck3 m))) 0 =
  nth j (dk (m_ctx m)) 0.
Proof.
  intros H1 Hj. unfold ariaInit_schedule. rewrite !seqs_app.
  assert (Hn : nr (m_ctx (ariaInit_ek (ariaInit_words key keyLen ck1 ck2 ck3 m)))
               = nr (m_ctx m)).
  { pose proof (ariaInit_schedule_keeps_nr key keyLen ck1 ck2 ck3) as K.
    clear H1 Hj. revert m. 
    assert (K1 : keeps_nr (ariaInit_words key keyLen ck1 ck2 ck3))
      by (unfold ariaInit_words; cbv zeta; keeps_nr_tac).
    assert (K2 : keeps_nr ariaInit_ek)
      by (unfold ariaInit_ek; cbv zeta; keeps_nr_tac).
    intros m. now rewrite K2, K1. }
  rewrite kd_dk by (rewrite Hn; assumption).
  now rewrite kd_ek, kd_words.
Qed.

Lemma ariaInit_mem_dk_rest c0 key keyLen j :
  keyLen = 16 \/ keyLen = 24 \/ keyLen = 32 ->
  (4 * (Z.to_nat (nr_of keyLen) + 1) <= j)%nat ->
  nth j (dk (m_ctx (snd (ariaInit_mem c0 key keyLen)))) 0 = nth j (dk c0) 0.
Proof.
  intros [-> | [-> | ->]] Hj; unfold ariaInit_mem;
    cbn [Z.eqb Pos.eqb snd]; rewrite kd_schedule;
    first [reflexivity | cbn; lia | exact Hj].
Qed.

Lemma bytes_okb_ok l : bytes_okb l = true -> bytes_ok l.
Proof.
  unfold bytes_okb, bytes_ok. rewrite forallb_forall, Forall_forall.
  intros H x Hx. apply H in Hx. unfold byte_ok. lia.
Qed.

(** * The claims of the specification *)

(** C1: with the master keys 00 01 .. 0F, 00 01 .. 17 and 00 01 .. 1F, a
    context initialised by [ariaInit] and [ariaEncryptBlock] applied to the
    plaintext 00 11 22 .. FF give the three ciphertexts of RFC 5794. *)
Theorem rfc5794_vectors :
  (exists ctx,
     ariaInit (Some ctx0) (Some (key_bytes 16)) 16 = (NO_ERROR, Some ctx) /\
     snd (ariaEncryptBlock ctx plain out0) =
     [0xD7; 0x18; 0xFB; 0xD6; 0xAB; 0x64; 0x4C; 0x73;
      0x9D; 0xA9; 0x5F; 0x3B; 0xE6; 0x45; 0x17; 0x78]) /\
  (exists ctx,
     ariaInit (Some ctx0) (Some (key_bytes 24)) 24 = (NO_ERROR, Some ctx) /\
     snd (ariaEncryptBlock ctx plain out0) =
     [0x26; 0x44; 0x9C; 0x18; 0x05; 0xDB; 0xE7; 0xAA;
      0x25; 0xA4; 0x68; 0xCE; 0x26; 0x3A; 0x9E; 0x79]) /\
  (exists ctx,
     ariaInit (Some ctx0) (Some (key_bytes 32)) 32 = (NO_ERROR, Some ctx) /\
     snd (ariaEncryptBlock ctx plain out0) =
     [0xF9; 0x2B; 0xD7; 0xC7; 0x9F; 0xB7; 0x2E; 0x2F;
      0x2B; 0x8F; 0x80; 0xC1; 0x97; 0x2D; 0x24; 0xFC]).
Proof.
  repeat split.
  - exists (m_ctx (snd (ariaInit_mem ctx0 (key_bytes 16) 16))).
    split; vm_compute; reflexivity.
  - exists (m_ctx (snd (ariaInit_mem ctx0 (key_bytes 24) 24))).
    split; vm_compute; reflexivity.
  - exists (m_ctx (snd (ariaInit_mem ctx0 (key_bytes 32) 32))).
    split; vm_compute; reflexivity.
Qed.

(** C2: for a key [K] of 16, 24 or 32 bytes and a block [P] of 16 bytes,
    after a successful [ariaInit] with [K], decrypting the encryption of [P]
    gives [P], and encrypting the decryption of [P] gives [P]. *)
Theorem round_trip c0 K keyLen ctx P out1 out2 :
  ctx_ok c0 ->
  keyLen = 16 \/ keyLen = 24 \/ keyLen = 32 ->
  Z.of_nat (length K) = keyLen -> bytes_ok K ->
  length P = 16%nat -> bytes_ok P ->
  length out1 = 16%nat -> length out2 = 16%nat ->
  ariaInit (Some c0) (Some K) keyLen = (NO_ERROR, Some ctx) ->
  snd (ariaDecryptBlock ctx (snd (ariaEncryptBlock ctx P out1)) out2) = P /\
  snd (ariaEncryptBlock ctx (snd (ariaDecryptBlock ctx P out1)) out2) = P.
Proof.
  intros Hc _ Hlen HK HlP HP Hl1 Hl2 Hs.
  apply (block_round_trip keyLen K); try assumption.
  now apply (ariaInit_initialised c0).
Qed.

Lemma round_trip_witness :
  let ctx := m_ctx (snd (ariaInit_mem ctx0 (key_bytes 16) 16)) in
  snd (ariaDecryptBlock ctx (snd (ariaEncryptBlock ctx plain out0)) out0)
  = plain /\
  snd (ariaEncryptBlock ctx (snd (ariaDecryptBlock ctx plain out0)) out0)
  = plain.
Proof.
  apply (round_trip ctx0 (key_bytes 16) 16).
  - split; reflexivity.
  - left; reflexivity.
  - reflexivity.
  - apply bytes_okb_ok; reflexivity.
  - reflexivity.
  - apply bytes_okb_ok; reflexivity.
  - reflexivity.
  - reflexivity.
  - vm_compute; reflexivity.
Defined.

(** C3: for a valid master key, [ariaInit] leaves in its array [w] the
    intermediate values [W0 = KL], [W1 = OF(W0, CK1) XOR KR],
    [W2 = EF(W1, CK2) XOR W0], [W3 = OF(W2, CK3) XOR W1], and stores all 17
    encryption round keys: key [r] of 1..17 is the source word (cycle
    [W1, W2, W3, W0]) rotated left by 109, 97, 61, 31 or 19 bits (rounds
    1..4, 5..8, 9..12, 13..16, 17) xored with the partner word (cycle
    [W0, W1, W2, W3]).  XOR, [OF], [EF] and the rotation are those of the
    specification's text ([xor128], [OF_spec], [EF_spec], [rotl128]), not
    the code's macros. *)
Theorem key_schedule c0 K keyLen :
  ctx_ok c0 ->
  keyLen = 16 \/ keyLen = 24 \/ keyLen = 32 ->
  Z.of_nat (length K) = keyLen -> bytes_ok K ->
  exists m,
    ariaInit_mem c0 K keyLen = (NO_ERROR, m) /\
    ariaInit (Some c0) (Some K) keyLen = (NO_ERROR, Some (m_ctx m)) /\
    (forall k, (k < 4)%nat -> blk (m_w m) k = W_spec K keyLen k) /\
    (forall r, (1 <= r <= 17)%nat ->
       blk (ek (m_ctx m)) (r - 1) = ek_spec (W_spec K keyLen) r).
Proof.
  intros Hc Hk Hlen HK.
  destruct (ariaInit_mem_spec c0 K keyLen Hc Hk Hlen) as [He S].
  exists (snd (ariaInit_mem c0 K keyLen)).
  assert (E : ariaInit_mem c0 K keyLen =
              (NO_ERROR, snd (ariaInit_mem c0 K keyLen))).
  { rewrite <- He. now destruct (ariaInit_mem c0 K keyLen). }
  repeat split.
  - exact E.
  - rewrite ariaInit_some, He. reflexivity.
  - intros k Hlt. rewrite <- W_code_spec. now apply (sch_w _ _ _ S).
  - intros r Hr. rewrite (sch_ek _ _ _ S r Hr). now apply ek_code_spec.
Qed.

Lemma key_schedule_witness :
  exists m,
    ariaInit_mem ctx0 (key_bytes 24) 24 = (NO_ERROR, m) /\
    ariaInit (Some ctx0) (Some (key_bytes 24)) 24 = (NO_ERROR, Some (m_ctx m)) /\
    (forall k, (k < 4)%nat -> blk (m_w m) k = W_spec (key_bytes 24) 24 k) /\
    (forall r, (1 <= r <= 17)%nat ->
       blk (ek (m_ctx m)) (r - 1) = ek_spec (W_spec (key_bytes 24) 24) r).
Proof.
  apply (key_schedule ctx0 (key_bytes 24) 24).
  - split; reflexivity.
  - right; left; reflexivity.
  - reflexivity.
  - apply bytes_okb_ok; reflexivity.
Defined.

(** C4: in a context successfully initialised with [nr] rounds,
    [ariaEncryptBlock] applies [nr - 1] full rounds, [OF] in the odd rounds
    and [EF] in the even ones, with the round keys [ek[0..nr-2]], then gives
    [SL2(S XOR ek[nr-1]) XOR ek[nr]], a final round without the diffusion
    layer; [ariaDecryptBlock] is the same with the table [dk].  The rounds
    are those of the specification's text ([crypt_spec]: [OF_spec],
    [EF_spec], [SL2_spec], [xor128]), not the code's macros. *)
Theorem block_transform_rounds c0 K keyLen ctx input output :
  ctx_ok c0 -> Z.of_nat (length K) = keyLen ->
  ariaInit (Some c0) (Some K) keyLen = (NO_ERROR, Some ctx) ->
  let n := Z.to_nat (nr ctx) in
  (n = 12 \/ n = 14 \/ n = 16)%nat /\
  ariaEncryptBlock ctx input output =
    (ctx, crypt_spec n (blk (ek ctx)) input output) /\
  ariaDecryptBlock ctx input output =
    (ctx, crypt_spec n (blk (dk ctx)) input output).
Proof.
  intros Hc Hlen Hs n.
  pose proof (ariaInit_initialised c0 K keyLen ctx Hc Hlen Hs) as H.
  pose proof (ini_ok _ _ _ H) as Hok.
  pose proof (ini_nr_cases _ _ _ H) as Hn.
  split.
  - subst n. destruct Hn as [-> | [-> | ->]]; [left | right; left | right; right];
      reflexivity.
  - rewrite <- !crypt_code_spec.
    split; [now apply encrypt_rounds | now apply decrypt_rounds].
Qed.

Lemma block_transform_rounds_witness :
  let ctx := m_ctx (snd (ariaInit_mem ctx0 (key_bytes 32) 32)) in
  let n := Z.to_nat (nr ctx) in
  (n = 12 \/ n = 14 \/ n = 16)%nat /\
  ariaEncryptBlock ctx plain out0 =
    (ctx, crypt_spec n (blk (ek ctx)) plain out0) /\
  ariaDecryptBlock ctx plain out0 =
    (ctx, crypt_spec n (blk (dk ctx)) plain out0).
Proof.
  apply (block_transform_rounds ctx0 (key_bytes 32) 32).
  - split; reflexivity.
  - reflexivity.
  - vm_compute; reflexivity.
Defined.



(** C6: the diffusion layer [A] is an involution: [A(A(X)) = X] for every
    state [X] of four 32-bit words. *)
Theorem diffusion_involution x : block_ok x -> A_blk (A_blk x) = x.
Proof. apply A_involutive. Qed.

Lemma diffusion_involution_witness :
  A_blk (A_blk (0x00112233, 0x44556677, 0x8899AABB, 0xCCDDEEFF))
  = (0x00112233, 0x44556677, 0x8899AABB, 0xCCDDEEFF).
Proof.
  apply (diffusion_involution (0x00112233, 0x44556677, 0x8899AABB, 0xCCDDEEFF)).
  unfold block_ok, word_ok. lia.
Defined.

(** C7: with a context and a key that are not null, [ariaInit] returns
    [ERROR_INVALID_KEY_LENGTH] for every [keyLen] in [0, 64] other than 16,
    24 and 32. *)
Theorem key_length_rejected context key keyLen :
  0 <= keyLen <= 64 -> keyLen <> 16 -> keyLen <> 24 -> keyLen <> 32 ->
  fst (ariaInit (Some context) (Some key) keyLen) = ERROR_INVALID_KEY_LENGTH.
Proof.
  intros _ H1 H2 H3. rewrite ariaInit_some.
  now rewrite ariaInit_mem_error.
Qed.

Lemma key_length_rejected_witness :
  fst (ariaInit (Some ctx0) (Some (key_bytes 20)) 20) = ERROR_INVALID_KEY_LENGTH.
Proof. apply (key_length_rejected ctx0 (key_bytes 20) 20); lia. Defined.

(** C8, as the specification words it, fails: with a 16-byte key the
    stored round count is not [12 + 2 * (keyLen / 8 - 16)], which is
    negative. *)
Lemma round_count_counterexample :
  exists ctx,
    ariaInit (Some ctx0) (Some (key_bytes 16)) 16 = (NO_ERROR, Some ctx) /\
    nr ctx = 12 /\ nr ctx <> 12 + 2 * (16 / 8 - 16).
Proof.
  exists (m_ctx (snd (ariaInit_mem ctx0 (key_bytes 16) 16))).
  split; [vm_compute; reflexivity|].
  split; [vm_compute; reflexivity|].
  vm_compute. discriminate.
Qed.

(** C8, amended: after a successful [ariaInit] with a key of [keyLen] bytes,
    [keyLen] is 16, 24 or 32 and the stored round count is
    [12 + 2 * (keyLen / 8 - 2)]: 12 for 16 bytes, 14 for 24, 16 for 32. *)
Theorem round_count c0 K keyLen ctx :
  ariaInit (Some c0) (Some K) keyLen = (NO_ERROR, Some ctx) ->
  (keyLen = 16 \/ keyLen = 24 \/ keyLen = 32) /\
  nr ctx = 12 + 2 * (keyLen / 8 - 2) /\
  (keyLen = 16 -> nr ctx = 12) /\
  (keyLen = 24 -> nr ctx = 14) /\
  (keyLen = 32 -> nr ctx = 16).
Proof.
  intros Hs. apply ariaInit_success in Hs. destruct Hs as [Hk ->].
  rewrite (ariaInit_mem_nr c0 K keyLen Hk).
  split; [exact Hk|].
  split; [now apply nr_of_formula|].
  repeat split; intros ->; reflexivity.
Qed.

Lemma round_count_witness :
  let ctx := m_ctx (snd (ariaInit_mem ctx0 (key_bytes 24) 24)) in
  (24 = 16 \/ 24 = 24 \/ 24 = 32) /\
  nr ctx = 12 + 2 * (24 / 8 - 2) /\
  (24 = 16 -> nr ctx = 12) /\
  (24 = 24 -> nr ctx = 14) /\
  (24 = 32 -> nr ctx = 16).
Proof.
  apply (round_count ctx0 (key_bytes 24) 24).
  vm_compute; reflexivity.
Defined.



(** C10: [ariaEncryptBlock] and [ariaDecryptBlock] leave the context as it
    is, [nr], [ek] and [dk] alike, and of the output buffer they write the
    first 16 bytes only. *)
Theorem block_frame ctx input output :
  fst (ariaEncryptBlock ctx input output) = ctx /\
  fst (ariaDecryptBlock ctx input output) = ctx /\
  length (snd (ariaEncryptBlock ctx input output)) = length output /\
  length (snd (ariaDecryptBlock ctx input output)) = length output /\
  skipn 16 (snd (ariaEncryptBlock ctx input output)) = skipn 16 output /\
  skipn 16 (snd (ariaDecryptBlock ctx input output)) = skipn 16 output.
Proof.
  split; [apply ariaEncryptBlock_ctx|].
  split; [apply ariaDecryptBlock_ctx|].
  unfold ariaEncryptBlock, ariaDecryptBlock. cbn [snd].
  rewrite !store_block_length, !store_block_skipn. tauto.
Qed.

(** * Small facts on the key halves, the release and the round functions *)

Lemma xor128_zero x : xor128 x (0, 0, 0, 0) = x.
Proof.
  destruct x as [[[x0 x1] x2] x3]. unfold xor128. now rewrite !Z.lxor_0_r.
Qed.

Lemma KR_short key : length key = 16%nat -> KR key = (0, 0, 0, 0).
Proof.
  intros H. unfold KR, load_block.
  rewrite !LOAD32BE_zero; [reflexivity | | | |];
    rewrite length_skipn; lia.
Qed.



Lemma OF_blk_undo d rk :
  block_ok d -> block_ok rk ->
  XOR128_blk (SL2_blk (A_blk (OF_blk d rk))) rk = d.
Proof.
  intros Hd Hk. rewrite OF_blk_eq.
  rewrite A_involutive by apply SL1_blk_ok.
  rewrite SL2_SL1 by now apply XOR128_blk_ok.
  apply XOR128_blk_cancel.
Qed.

Lemma EF_blk_undo d rk :
  block_ok d -> block_ok rk ->
  XOR128_blk (SL1_blk (A_blk (EF_blk d rk))) rk = d.
Proof.
  intros Hd Hk. rewrite EF_blk_eq.
  rewrite A_involutive by apply SL2_blk_ok.
  rewrite SL1_SL2 by now apply XOR128_blk_ok.
  apply XOR128_blk_cancel.
Qed.

Lemma ariaInit_mem_valid c0 key keyLen :
  keyLen = 16 \/ keyLen = 24 \/ keyLen = 32 ->
  fst (ariaInit_mem c0 key keyLen) = NO_ERROR.
Proof. intros [-> | [-> | ->]]; reflexivity. Qed.

Lemma W_spec_short K :
  W_spec K 16 1 = xor128 (OF_spec (KL K) (blk c 0)) (KR K).
Proof. reflexivity. Qed.

Lemma scheduled_w1 keyLen key m :
  scheduled keyLen key m -> blk (m_w m) 1 = W_code key keyLen 1.
Proof. intros S. apply (sch_w _ _ _ S 1%nat). lia. Qed.

(** * Further properties of the code *)

(** X1: in the tables of the code, [sb3] is the inverse of [sb1] and [sb4]
    the inverse of [sb2], on every byte. *)
Theorem sbox_tables_inverse x :
  byte_ok x ->
  at_ sb3 (at_ sb1 x) = x /\ at_ sb1 (at_ sb3 x) = x /\
  at_ sb4 (at_ sb2 x) = x /\ at_ sb2 (at_ sb4 x) = x.
Proof. apply sbox_inverse. Qed.

Lemma sbox_tables_inverse_witness :
  at_ sb3 (at_ sb1 0xA5) = 0xA5 /\ at_ sb1 (at_ sb3 0xA5) = 0xA5 /\
  at_ sb4 (at_ sb2 0xA5) = 0xA5 /\ at_ sb2 (at_ sb4 0xA5) = 0xA5.
Proof. apply (sbox_tables_inverse 0xA5). unfold byte_ok. lia. Defined.

(** X2: the substitution layers undo each other: [SL1] after [SL2] and
    [SL2] after [SL1] give back every state of four 32-bit words. *)
Theorem substitution_layers_inverse x :
  block_ok x -> SL1_blk (SL2_blk x) = x /\ SL2_blk (SL1_blk x) = x.
Proof. intros H. split; [now apply SL1_SL2 | now apply SL2_SL1]. Qed.

Lemma substitution_layers_inverse_witness :
  SL1_blk (SL2_blk (0x00112233, 0x44556677, 0x8899AABB, 0xCCDDEEFF))
  = (0x00112233, 0x44556677, 0x8899AABB, 0xCCDDEEFF) /\
  SL2_blk (SL1_blk (0x00112233, 0x44556677, 0x8899AABB, 0xCCDDEEFF))
  = (0x00112233, 0x44556677, 0x8899AABB, 0xCCDDEEFF).
Proof.
  apply (substitution_layers_inverse
           (0x00112233, 0x44556677, 0x8899AABB, 0xCCDDEEFF)).
  unfold block_ok, word_ok. lia.
Defined.

(** X3: the diffusion layer is linear over xor:
    [A(x xor y) = A(x) xor A(y)], for all states. *)
Theorem diffusion_linear x y :
  A_blk (XOR128_blk x y) = XOR128_blk (A_blk x) (A_blk y).
Proof. apply A_linear. Qed.

(** X4: for each of the amounts the key schedule uses, the macro [ROL128]
    is the rotation to the left of the 128-bit number its four words
    make. *)
Theorem ROL128_rotation n x :
  n = 109%nat \/ n = 97%nat \/ n = 61%nat \/ n = 31%nat \/ n = 19%nat ->
  block_ok x -> ROL128_blk n x = rotl128 x (Z.of_nat n).
Proof. apply ROL128_rotl. Qed.

Lemma ROL128_rotation_witness :
  ROL128_blk 61 (0x00112233, 0x44556677, 0x8899AABB, 0xCCDDEEFF)
  = rotl128 (0x00112233, 0x44556677, 0x8899AABB, 0xCCDDEEFF) 61.
Proof.
  apply (ROL128_rotation 61 (0x00112233, 0x44556677, 0x8899AABB, 0xCCDDEEFF)).
  - right; right; left; reflexivity.
  - unfold block_ok, word_ok. lia.
Defined.

(** X5: the round functions can be undone with the round key: the
    diffusion layer, the other substitution layer and the xor of the key,
    in this order, give back the state that went into [OF] or [EF]. *)
Theorem round_functions_invertible d rk :
  block_ok d -> block_ok rk ->
  XOR128_blk (SL2_blk (A_blk (OF_blk d rk))) rk = d /\
  XOR128_blk (SL1_blk (A_blk (EF_blk d rk))) rk = d.
Proof. intros Hd Hk. split; [now apply OF_blk_undo | now apply EF_blk_undo]. Qed.

Lemma round_functions_invertible_witness :
  let d := (0x00112233, 0x44556677, 0x8899AABB, 0xCCDDEEFF) in
  let rk := (0x517CC1B7, 0x27220A94, 0xFE13ABE8, 0xFA9A6EE0) in
  XOR128_blk (SL2_blk (A_blk (OF_blk d rk))) rk = d /\
  XOR128_blk (SL1_blk (A_blk (EF_blk d rk))) rk = d.
Proof.
  apply (round_functions_invertible
           (0x00112233, 0x44556677, 0x8899AABB, 0xCCDDEEFF)
           (0x517CC1B7, 0x27220A94, 0xFE13ABE8, 0xFA9A6EE0));
    unfold block_ok, word_ok; lia.
Defined.

(** X6: an [ariaInit] that fails leaves the context as it was, whatever
    the error. *)
Theorem init_failure_keeps_context context key keyLen :
  fst (ariaInit context key keyLen) <> NO_ERROR ->
  snd (ariaInit context key keyLen) = context.
Proof.
  intros H. destruct context as [c0|]; [|reflexivity].
  destruct key as [k|]; [|reflexivity].
  rewrite ariaInit_some in *. cbn [fst snd] in *.
  destruct (Z.eq_dec keyLen 16) as [E1|E1];
    [rewrite ariaInit_mem_valid in H by tauto; congruence|].
  destruct (Z.eq_dec keyLen 24) as [E2|E2];
    [rewrite ariaInit_mem_valid in H by tauto; congruence|].
  destruct (Z.eq_dec keyLen 32) as [E3|E3];
    [rewrite ariaInit_mem_valid in H by tauto; congruence|].
  now rewrite ariaInit_mem_error.
Qed.

Lemma init_failure_keeps_context_witness :
  snd (ariaInit (Some ctx0) (Some (key_bytes 20)) 20) = Some ctx0.
Proof.
  apply (init_failure_keeps_context (Some ctx0) (Some (key_bytes 20)) 20).
  vm_compute. discriminate.
Defined.

(** X7: [ariaInit] reads the first [keyLen] bytes of the key buffer and no
    others: bytes that follow them do not change its result. *)
Theorem init_reads_keyLen_bytes c0 K rest keyLen :
  Z.of_nat (length K) = keyLen ->
  ariaInit (Some c0) (Some (K ++ rest)) keyLen =
  ariaInit (Some c0) (Some K) keyLen.
Proof.
  intros H. rewrite !ariaInit_some. now rewrite ariaInit_mem_app.
Qed.

Lemma init_reads_keyLen_bytes_witness :
  ariaInit (Some ctx0) (Some (key_bytes 16 ++ [0xFF; 0xFF])) 16 =
  ariaInit (Some ctx0) (Some (key_bytes 16)) 16.
Proof.
  apply (init_reads_keyLen_bytes ctx0 (key_bytes 16) [0xFF; 0xFF] 16).
  reflexivity.
Defined.

(** X8: [ariaInit] writes the words [dk[0 .. 4 * nr + 3]] only: every word
    of [dk] from [4 * (nr + 1)] on holds after a successful call what it
    held before. *)
Theorem init_keeps_dk_tail c0 K keyLen ctx j :
  ariaInit (Some c0) (Some K) keyLen = (NO_ERROR, Some ctx) ->
  (4 * (Z.to_nat (nr ctx) + 1) <= j)%nat ->
  nth j (dk ctx) 0 = nth j (dk c0) 0.
Proof.
  intros Hs Hj. apply ariaInit_success in Hs. destruct Hs as [Hk ->].
  rewrite ariaInit_mem_nr in Hj by assumption.
  now apply ariaInit_mem_dk_rest.
Qed.

Lemma init_keeps_dk_tail_witness :
  let c0 := mkAriaContext 16 (repeat 0 68) (repeat 0xDEADBEEF 68) in
  nth 52 (dk (m_ctx (snd (ariaInit_mem c0 (key_bytes 16) 16)))) 0 =
  nth 52 (dk c0) 0.
Proof.
  apply (init_keeps_dk_tail
           (mkAriaContext 16 (repeat 0 68) (repeat 0xDEADBEEF 68))
           (key_bytes 16) 16).
  - vm_compute; reflexivity.
  - vm_compute. lia.
Defined.

(** X9: a context whose round count is neither 12 nor 14 is run through
    the last branch of the block functions: sixteen rounds, whatever the
    count says. *)
Theorem other_round_counts c0 input output :
  ctx_ok c0 -> nr c0 <> 12 -> nr c0 <> 14 ->
  ariaEncryptBlock c0 input output =
    (c0, crypt_spec 16 (blk (ek c0)) input output) /\
  ariaDecryptBlock c0 input output =
    (c0, crypt_spec 16 (blk (dk c0)) input output).
Proof.
  intros Hc H12 H14. rewrite <- !crypt_code_spec.
  split; [now apply encrypt_else | now apply decrypt_else].
Qed.

Lemma other_round_counts_witness :
  ariaEncryptBlock ctx0 plain out0 =
    (ctx0, crypt_spec 16 (blk (ek ctx0)) plain out0) /\
  ariaDecryptBlock ctx0 plain out0 =
    (ctx0, crypt_spec 16 (blk (dk ctx0)) plain out0).
Proof.
  apply (other_round_counts ctx0 plain out0).
  - split; reflexivity.
  - vm_compute. discriminate.
  - vm_compute. discriminate.
Defined.



(** X11: with a 16-byte key the right half [KR] is zero, and the second
    intermediate value of [ariaInit] is [OF(KL, CK1)] with [CK1] the first
    four constants. *)
Theorem short_key_W1 c0 K :
  ctx_ok c0 -> length K = 16%nat ->
  blk (m_w (snd (ariaInit_mem c0 K 16))) 1 = OF_spec (load_block K) (blk c 0).
Proof.
  intros Hc Hlen.
  destruct (ariaInit_mem_spec c0 K 16 Hc) as [_ S];
    [ left; reflexivity | rewrite Hlen; reflexivity | ].
  rewrite (scheduled_w1 _ _ _ S), W_code_spec, W_spec_short.
  rewrite KR_short by assumption. apply xor128_zero.
Qed.

Lemma short_key_W1_witness :
  blk (m_w (snd (ariaInit_mem ctx0 (key_bytes 16) 16))) 1 =
  OF_spec (load_block (key_bytes 16)) (blk c 0).
Proof.
  apply (short_key_W1 ctx0 (key_bytes 16)).
  - split; reflexivity.
  - reflexivity.
Defined.

(** X12: [ariaInit] succeeds exactly when neither pointer is null and the
    key length is 16, 24 or 32. *)
Theorem init_succeeds_iff context key keyLen :
  fst (ariaInit context key keyLen) = NO_ERROR <->
  (exists c0 k, context = Some c0 /\ key = Some k) /\
  (keyLen = 16 \/ keyLen = 24 \/ keyLen = 32).
Proof.
  split.
  - intros H. destruct context as [c0|]; [|discriminate].
    destruct key as [k|]; [|discriminate].
    split; [now exists c0, k|].
    destruct (Z.eq_dec keyLen 16) as [E1|E1]; [tauto|].
    destruct (Z.eq_dec keyLen 24) as [E2|E2]; [tauto|].
    destruct (Z.eq_dec keyLen 32) as [E3|E3]; [tauto|].
    rewrite ariaInit_some in H. cbn [fst] in H.
    rewrite ariaInit_mem_error in H by assumption. discriminate.
  - intros [(c0 & k & -> & ->) Hk].
    rewrite ariaInit_some. cbn [fst]. now apply ariaInit_mem_valid.
Qed.

(** X13: the macro [A] xors into output byte [i] of the state the seven
    input bytes of row [i] of [A_rows]. *)
Theorem diffusion_by_rows x : A_blk x = A_spec x.
Proof. apply A_blk_spec. Qed.

(** X14: the macro [SL1] applies the tables [sb1, sb2, sb3, sb4] along the
    sixteen bytes of the state, in this order four times over, and the
    macro [SL2] the tables [sb3, sb4, sb1, sb2]. *)
Theorem substitution_by_tables x :
  SL1_blk x = SL1_spec x /\ SL2_blk x = SL2_spec x.
Proof. split; [apply SL1_blk_spec | apply SL2_blk_spec]. Qed.

End Aria.
